(** * HAD: reverse-mode automatic differentiation with edge pushing

    A shallow embedding of [had.h] (namespace [had]): the tape of vertex
    records, the recording operators, and the reverse sweep
    [PropagateAdjoint] that pushes second-order edges.

    - [Real] is C++ [double]; it is modelled by the kernel's binary64
      floats, so arithmetic and the tests [x != 0.0] are the IEEE ones.
    - [VertexId] is [unsigned int]; it is modelled by [N] with the
      truncation modulo [2^32] written out where the source converts a
      [size_t] to it.
    - The process-wide tape [g_ADGraph] is threaded explicitly by the
      monad [G]; an access outside a vector or outside the dimensions of
      the sparse matrix is undefined in the source and is the error of
      the monad here. *)

From Stdlib Require Import NArith List Floats Lia.
From stdpp Require Import base option gmap list.

Local Open Scope N_scope.

Definition Real : Set := float.
Definition VertexId : Set := N.
Bind Scope float_scope with Real.
Bind Scope N_scope with VertexId.

(** Width of [unsigned int] and of [size_t]. *)
Definition UINT_BITS : N := 32.
Definition SIZE_BITS : N := 64.

(** Conversion of a [std::vector] size to [VertexId]. *)
Definition to_VertexId (n : N) : VertexId := n mod 2 ^ UINT_BITS.

(** [a != Real(0.0)] on doubles: false on both zeros, true on NaN. *)
Definition Real_neq0 (a : Real) : bool := negb (PrimFloat.eqb a 0%float).

(** ** The sparse matrix collaborator

    [Eigen::SparseMatrix<Real>] with its default column-major storage,
    as far as [had.h] uses it.  The matrix is a finite map from
    (row, column) to the stored value; a stored entry may hold zero.
    Indices are [N]; the conversion of a [VertexId] to Eigen's signed
    index type is taken as exact. *)
Module Eigen.

Record SparseMatrix : Type := mkSparse {
  rows : N;
  cols : N;
  entries : gmap (N * N) float
}.

(** Default construction: a 0 x 0 matrix. *)
Definition empty : SparseMatrix := mkSparse 0 0 ∅.

(** [resize(r, c)]: Eigen documents that it resizes the matrix to
    r x c and initialises it to zero, dropping every stored entry. *)
Definition resize (r c : N) (m : SparseMatrix) : SparseMatrix :=
  mkSparse r c ∅.

(** [setZero()]: removes all stored entries, keeps the dimensions. *)
Definition setZero (m : SparseMatrix) : SparseMatrix :=
  mkSparse (rows m) (cols m) ∅.

(** [coeff(r, c)]: the read-only access; zero where nothing is stored. *)
Definition coeff (m : SparseMatrix) (r c : N) : float :=
  default 0%float (entries m !! (r, c)).

Definition in_range (m : SparseMatrix) (r c : N) : bool :=
  (r <? rows m) && (c <? cols m).

(** [coeffRef(r, c)]: a reference to the coefficient; when nothing is
    stored at (r, c) a zero entry is inserted first.  The result is the
    value under the reference and the matrix after the access. *)
Definition coeffRef (r c : N) (m : SparseMatrix) : option (float * SparseMatrix) :=
  if in_range m r c then
    match entries m !! (r, c) with
    | Some x => Some (x, m)
    | None => Some (0%float, mkSparse (rows m) (cols m) (<[(r, c) := 0%float]> (entries m)))
    end
  else None.

(** [coeffRef(r, c) += w]. *)
Definition coeffRef_add (r c : N) (w : float) (m : SparseMatrix) : option SparseMatrix :=
  match coeffRef r c m with
  | Some (x, m') =>
      Some (mkSparse (rows m') (cols m') (<[(r, c) := (x + w)%float]> (entries m')))
  | None => None
  end.

(** The inner indices [0 .. rows-1] in the order an iterator meets them. *)
Definition inner_indices (m : SparseMatrix) : list N :=
  map N.of_nat (seq 0 (N.to_nat (rows m))).

(** [InnerIterator it(m, outer)]: with column-major storage the outer
    index is a column; the iterator yields, by increasing row, the pair
    ([it.index()], [it.value()]) of every entry stored in that column. *)
Definition InnerIterator (m : SparseMatrix) (outer : N) : list (N * float) :=
  omap (fun r => match entries m !! (r, outer) with
                 | Some x => Some (r, x)
                 | None => None
                 end) (inner_indices m).

End Eigen.

(** ** The tape *)

Module ADEdge.
Record t : Type := mk { to : VertexId; w : Real }.
(** [ADEdge(to)]: the weight defaults to [Real(0.0)]. *)
Definition self (newId : VertexId) : t := mk newId 0%float.
End ADEdge.

Record AReal : Type := mkAReal { val : Real; varId : VertexId }.

Record ADVertex : Type := mkADVertex {
  e1 : ADEdge.t;
  e2 : ADEdge.t;
  w : Real;
  soW : Real
}.

(** [ADVertex(newId)]: both edges are the self sentinel, weights zero. *)
Definition ADVertex_new (newId : VertexId) : ADVertex :=
  mkADVertex (ADEdge.self newId) (ADEdge.self newId) 0%float 0%float.

Record ADGraph : Type := mkADGraph {
  vertices : list ADVertex;
  soEdges : Eigen.SparseMatrix
}.

(** [ADGraph()]: no vertex, a default-constructed matrix. *)
Definition ADGraph_new : ADGraph := mkADGraph [] Eigen.empty.

(** [vertices.size()]. *)
Definition size (g : ADGraph) : N := N.of_nat (length (vertices g)).

(** ** The monad of operations on the current tape *)

Definition G (A : Type) : Type := ADGraph -> option (A * ADGraph).

Definition ret {A} (a : A) : G A := fun g => Some (a, g).

Definition bind {A B} (c : G A) (k : A -> G B) : G B :=
  fun g => match c g with
           | Some (a, g') => k a g'
           | None => None
           end.

Definition fail {A} : G A := fun _ => None.

Declare Scope tape_scope.
Delimit Scope tape_scope with tape.
Notation "'let*' x ':=' c 'in' k" := (bind c (fun x => k))
  (at level 10, x name, c at level 100, k at level 200) : tape_scope.
Notation "c ';;' k" := (bind c (fun _ => k))
  (at level 100, k at level 200, right associativity) : tape_scope.
Local Open Scope tape_scope.

(** Run a command for its effect on the tape. *)
Definition exec {A} (c : G A) (g : ADGraph) : option ADGraph :=
  match c g with
  | Some (_, g') => Some g'
  | None => None
  end.

(** [for (x : l) body(x)]. *)
Fixpoint for_each {A} (l : list A) (body : A -> G unit) : G unit :=
  match l with
  | [] => ret tt
  | x :: l' => body x ;; for_each l' body
  end.

(** [g_ADGraph->vertices[i]], read. *)
Definition vertex_at (i : VertexId) : G ADVertex :=
  fun g => match vertices g !! N.to_nat i with
           | Some v => Some (v, g)
           | None => None
           end.

(** [g_ADGraph->vertices[i] = f(g_ADGraph->vertices[i])], in place. *)
Definition update_vertex (i : VertexId) (f : ADVertex -> ADVertex) : G unit :=
  fun g => match vertices g !! N.to_nat i with
           | Some v => Some (tt, mkADGraph (<[N.to_nat i := f v]> (vertices g)) (soEdges g))
           | None => None
           end.

Definition Clear : G unit :=
  fun g => Some (tt, mkADGraph [] (Eigen.setZero (soEdges g))).

Definition NewAReal (val : Real) : G AReal :=
  fun g =>
    let newId := to_VertexId (size g) in
    Some (mkAReal val newId,
          mkADGraph (vertices g ++ [ADVertex_new newId]) (soEdges g)).

(** [AddEdge(c, p, w, soW)]. *)
Definition AddEdge1 (c p : AReal) (w1 soW' : Real) : G unit :=
  update_vertex (varId c) (fun v =>
    mkADVertex (ADEdge.mk (varId p) w1) (e2 v) (w v) soW').

(** [AddEdge(c, p1, p2, w1, w2, soW)]. *)
Definition AddEdge2 (c p1 p2 : AReal) (w1 w2 soW' : Real) : G unit :=
  update_vertex (varId c) (fun v =>
    mkADVertex (ADEdge.mk (varId p1) w1) (ADEdge.mk (varId p2) w2) (w v) soW').

Definition AddSoEdge (i j : VertexId) (w' : Real) : G unit :=
  fun g => match Eigen.coeffRef_add (N.min i j) (N.max i j) w' (soEdges g) with
           | Some m => Some (tt, mkADGraph (vertices g) m)
           | None => None
           end.

(** ** Recording front end *)

(** The [<cmath>] functions the header calls on plain doubles.  They are
    outside the library; [std::sqrt] is the correctly rounded IEEE square
    root and is the kernel's, the others are taken as given. *)
Record Libm : Type := mkLibm {
  std_pow : Real -> Real -> Real;
  std_exp : Real -> Real;
  std_log : Real -> Real;
  std_sin : Real -> Real;
  std_cos : Real -> Real;
  std_tan : Real -> Real;
  std_asin : Real -> Real;
  std_acos : Real -> Real
}.

Definition std_sqrt : Real -> Real := PrimFloat.sqrt.

Local Open Scope float_scope.

(** [operator+] *)
Definition operator_add (l r : AReal) : G AReal :=
  let* ret' := NewAReal (val l + val r) in
  AddEdge2 ret' l r 1 1 0 ;; ret ret'.

Definition operator_add_r (l : AReal) (r : Real) : G AReal :=
  let* ret' := NewAReal (val l + r) in
  AddEdge1 ret' l 1 0 ;; ret ret'.

Definition operator_add_l (l : Real) (r : AReal) : G AReal :=
  operator_add_r r l.

(** [operator-] *)
Definition operator_sub (l r : AReal) : G AReal :=
  let* ret' := NewAReal (val l - val r) in
  AddEdge2 ret' l r 1 (- (1)) 0 ;; ret ret'.

Definition operator_sub_r (l : AReal) (r : Real) : G AReal :=
  let* ret' := NewAReal (val l - r) in
  AddEdge1 ret' l 1 0 ;; ret ret'.

Definition operator_sub_l (l : Real) (r : AReal) : G AReal :=
  let* ret' := NewAReal (l - val r) in
  AddEdge1 ret' r (-1) 0 ;; ret ret'.

(** [operator*] *)
Definition operator_mul (l r : AReal) : G AReal :=
  let* ret' := NewAReal (val l * val r) in
  AddEdge2 ret' l r (val r) (val l) 1 ;; ret ret'.

Definition operator_mul_r (l : AReal) (r : Real) : G AReal :=
  let* ret' := NewAReal (val l * r) in
  AddEdge1 ret' l r 0 ;; ret ret'.

Definition operator_mul_l (l : Real) (r : AReal) : G AReal :=
  operator_mul_r r l.

(** [Inv] on an active scalar and on a plain number. *)
Definition Inv (x : AReal) : G AReal :=
  let invX := 1 / val x in
  let invXSq := invX * invX in
  let invXCu := invXSq * invX in
  let* ret' := NewAReal invX in
  AddEdge1 ret' x (- invXSq) (2 * invXCu) ;; ret ret'.

Definition Inv_Real (x : Real) : Real := 1 / x.

(** [operator/] *)
Definition operator_div (l r : AReal) : G AReal :=
  let* i := Inv r in operator_mul l i.

Definition operator_div_r (l : AReal) (r : Real) : G AReal :=
  operator_mul_r l (Inv_Real r).

Definition operator_div_l (l : Real) (r : AReal) : G AReal :=
  let* i := Inv r in operator_mul_l l i.

(** The compound assignments [l = l op r] rebind [l] to the new scalar. *)
Definition operator_add_assign (l r : AReal) : G AReal := operator_add l r.
Definition operator_add_assign_r (l : AReal) (r : Real) : G AReal := operator_add_r l r.
Definition operator_sub_assign (l r : AReal) : G AReal := operator_sub l r.
Definition operator_sub_assign_r (l : AReal) (r : Real) : G AReal := operator_sub_r l r.
Definition operator_mul_assign (l r : AReal) : G AReal := operator_mul l r.
Definition operator_mul_assign_r (l : AReal) (r : Real) : G AReal := operator_mul_r l r.
Definition operator_div_assign (l r : AReal) : G AReal := operator_div l r.
Definition operator_div_assign_r (l : AReal) (r : Real) : G AReal := operator_div_r l r.

(** Comparisons read the primal values only. *)
Definition operator_lt (l r : AReal) : bool := PrimFloat.ltb (val l) (val r).
Definition operator_le (l r : AReal) : bool := PrimFloat.leb (val l) (val r).
Definition operator_gt (l r : AReal) : bool := PrimFloat.ltb (val r) (val l).
Definition operator_ge (l r : AReal) : bool := PrimFloat.leb (val r) (val l).
Definition operator_eq (l r : AReal) : bool := PrimFloat.eqb (val l) (val r).

Section Misc.

Variable lm : Libm.

Definition sqrt (x : AReal) : G AReal :=
  let sqrtX := std_sqrt (val x) in
  let invSqrtX := 1 / sqrtX in
  let* ret' := NewAReal sqrtX in
  AddEdge1 ret' x (0.5 * invSqrtX) ((- (0.25)) * invSqrtX / val x) ;; ret ret'.

Definition pow (x : AReal) (a : Real) : G AReal :=
  let powX := std_pow lm (val x) a in
  let* ret' := NewAReal powX in
  AddEdge1 ret' x (a * std_pow lm (val x) (a - 1))
                  (a * (a - 1) * std_pow lm (val x) (a - 2)) ;; ret ret'.

Definition exp (x : AReal) : G AReal :=
  let expX := std_exp lm (val x) in
  let* ret' := NewAReal expX in
  AddEdge1 ret' x expX expX ;; ret ret'.

Definition log (x : AReal) : G AReal :=
  let logX := std_log lm (val x) in
  let* ret' := NewAReal logX in
  let invX := 1 / val x in
  AddEdge1 ret' x invX ((- invX) * invX) ;; ret ret'.

Definition sin (x : AReal) : G AReal :=
  let sinX := std_sin lm (val x) in
  let* ret' := NewAReal sinX in
  AddEdge1 ret' x (std_cos lm (val x)) (- sinX) ;; ret ret'.

Definition cos (x : AReal) : G AReal :=
  let cosX := std_cos lm (val x) in
  let* ret' := NewAReal cosX in
  AddEdge1 ret' x (- std_sin lm (val x)) (- cosX) ;; ret ret'.

Definition tan (x : AReal) : G AReal :=
  let tanX := std_tan lm (val x) in
  let secX := 1 / std_cos lm (val x) in
  let sec2X := secX * secX in
  let* ret' := NewAReal tanX in
  AddEdge1 ret' x sec2X (2 * tanX * sec2X) ;; ret ret'.

Definition asin (x : AReal) : G AReal :=
  let asinX := std_asin lm (val x) in
  let* ret' := NewAReal asinX in
  let tmp := 1 / (1 - val x * val x) in
  let sqrtTmp := std_sqrt tmp in
  AddEdge1 ret' x sqrtTmp (val x * sqrtTmp * tmp) ;; ret ret'.

Definition acos (x : AReal) : G AReal :=
  let acosX := std_acos lm (val x) in
  let* ret' := NewAReal acosX in
  let tmp := 1 / (1 - val x * val x) in
  let negSqrtTmp := - std_sqrt tmp in
  AddEdge1 ret' x negSqrtTmp (val x * negSqrtTmp * tmp) ;; ret ret'.

End Misc.

(** ** Seeding and reading results *)

Definition SetAdjoint (v : AReal) (adj : Real) : G unit :=
  update_vertex (varId v) (fun x => mkADVertex (e1 x) (e2 x) adj (soW x)).

Definition GetAdjoint (v : AReal) : G Real :=
  let* x := vertex_at (varId v) in ret (w x).

(** [GetAdjoint(i, j)]: it goes through [coeffRef], which is not a
    read-only access. *)
Definition GetAdjoint2 (i j : AReal) : G Real :=
  fun g => match Eigen.coeffRef (N.min (varId i) (varId j))
                                (N.max (varId i) (varId j)) (soEdges g) with
           | Some (x, m) => Some (x, mkADGraph (vertices g) m)
           | None => None
           end.

(** ** Edge-pushing reverse sweep *)

Definition PushEdge (foEdge soEdge : ADEdge.t) : G unit :=
  if (ADEdge.to foEdge =? ADEdge.to soEdge)%N then
    AddSoEdge (ADEdge.to foEdge) (ADEdge.to foEdge)
              (2 * ADEdge.w foEdge * ADEdge.w soEdge)
  else
    AddSoEdge (ADEdge.to foEdge) (ADEdge.to soEdge)
              (ADEdge.w foEdge * ADEdge.w soEdge).

(** Body of the loop over the second-order entries met at [vid]; [e1']
    and [e2'] are the edges of the vertex [vid]. *)
Definition push_entry (vid : VertexId) (e1' e2' : ADEdge.t) (it : N * Real) : G unit :=
  let soEdge := ADEdge.mk (fst it) (snd it) in
  if negb (ADEdge.to soEdge =? vid)%N then
    PushEdge e1' soEdge ;;
    if negb (ADEdge.to e2' =? vid)%N then PushEdge e2' soEdge else ret tt
  else
    AddSoEdge (ADEdge.to e1') (ADEdge.to e1')
              (ADEdge.w e1' * ADEdge.w e1' * ADEdge.w soEdge) ;;
    if negb (ADEdge.to e2' =? vid)%N then
      AddSoEdge (ADEdge.to e2') (ADEdge.to e2')
                (ADEdge.w e2' * ADEdge.w e2' * ADEdge.w soEdge) ;;
      AddSoEdge (ADEdge.to e1') (ADEdge.to e2')
                (if (ADEdge.to e1' =? ADEdge.to e2')%N
                 then 2 * ADEdge.w e1' * ADEdge.w e2' * ADEdge.w soEdge
                 else ADEdge.w e1' * ADEdge.w e2' * ADEdge.w soEdge)
    else ret tt.

(** The pushing loop: the iterator is opened on column [vid] of the
    accumulator and the body runs on every entry it yields.  The body
    writes to columns other than [vid] only (lemma
    [pushing_keeps_column] below), so the entries the iterator yields
    are those stored when it was opened.  How the storage of the matrix
    moves when an entry is inserted is below this model. *)
Definition pushing (vid : VertexId) (e1' e2' : ADEdge.t) : G unit :=
  fun g => for_each (Eigen.InnerIterator (soEdges g) vid) (push_entry vid e1' e2') g.

(** The creating step, under [a != 0]. *)
Definition creating (vid : VertexId) (vertex : ADVertex) (a : Real) : G unit :=
  if Real_neq0 (soW vertex) then
    if (ADEdge.to (e2 vertex) =? vid)%N then
      AddSoEdge (ADEdge.to (e1 vertex)) (ADEdge.to (e1 vertex)) (a * soW vertex)
    else
      AddSoEdge (ADEdge.to (e1 vertex)) (ADEdge.to (e2 vertex))
                (if (ADEdge.to (e1 vertex) =? ADEdge.to (e2 vertex))%N
                 then 2 * a * soW vertex else a * soW vertex)
  else ret tt.

(** The first-order step, under [a != 0]. *)
Definition adjoint (vid : VertexId) (vertex : ADVertex) (a : Real) : G unit :=
  update_vertex vid (fun x => mkADVertex (e1 x) (e2 x) 0 (soW x)) ;;
  update_vertex (ADEdge.to (e1 vertex))
    (fun p => mkADVertex (e1 p) (e2 p) (w p + a * ADEdge.w (e1 vertex)) (soW p)) ;;
  if negb (ADEdge.to (e2 vertex) =? vid)%N then
    update_vertex (ADEdge.to (e2 vertex))
      (fun p => mkADVertex (e1 p) (e2 p) (w p + a * ADEdge.w (e2 vertex)) (soW p))
  else ret tt.

(** One iteration of the loop of [PropagateAdjoint], at [vid].  The
    references [vertex], [e1], [e2] of the source designate the record
    [vid]; the only write to that record is [vertex.w = 0], after [a] is
    read, so its edges and [soW] are read once here. *)
Definition visit (vid : VertexId) : G unit :=
  let* vertex := vertex_at vid in
  if (ADEdge.to (e1 vertex) =? vid)%N then ret tt
  else
    pushing vid (e1 vertex) (e2 vertex) ;;
    let* now := vertex_at vid in
    let a := w now in
    if Real_neq0 a then
      creating vid vertex a ;; adjoint vid vertex a
    else ret tt.

(** [for (vid = k; vid > 0; vid--)]. *)
Fixpoint sweep (k : nat) : G unit :=
  match k with
  | O => ret tt
  | S k' => visit (N.of_nat k) ;; sweep k'
  end.

(** [vertices.size() - 1] in [size_t], converted to [VertexId]. *)
Definition first_vid (n : N) : VertexId :=
  to_VertexId ((n + (2 ^ SIZE_BITS - 1)) mod 2 ^ SIZE_BITS)%N.

Definition resize_soEdges : G unit :=
  fun g => Some (tt, mkADGraph (vertices g)
                       (Eigen.resize (size g) (size g) (soEdges g))).

Definition PropagateAdjoint : G unit :=
  resize_soEdges ;;
  fun g => sweep (N.to_nat (first_vid (size g))) g.

(** ** Scenarios *)

(** [x = 5; f = x * x], seed 1 on [f], propagate, read the results. *)
Definition scenario_square : G (Real * Real * Real) :=
  let* x := NewAReal 5 in
  let* f := operator_mul x x in
  SetAdjoint f 1 ;;
  PropagateAdjoint ;;
  let* gx := GetAdjoint x in
  let* hxx := GetAdjoint2 x x in
  ret (val f, gx, hxx).

(** [x = 1; y = 1; f = log(x*x + y*y)], seed 1 on [f], propagate, read. *)
Definition scenario_log (lm : Libm) : G (Real * (Real * Real) * (Real * Real * Real)) :=
  let* x := NewAReal 1 in
  let* y := NewAReal 1 in
  let* xx := operator_mul x x in
  let* yy := operator_mul y y in
  let* s := operator_add xx yy in
  let* f := log lm s in
  SetAdjoint f 1 ;;
  PropagateAdjoint ;;
  let* gx := GetAdjoint x in
  let* gy := GetAdjoint y in
  let* hxx := GetAdjoint2 x x in
  let* hyy := GetAdjoint2 y y in
  let* hxy := GetAdjoint2 x y in
  ret (val f, (gx, gy), (hxx, hyy, hxy)).

(** ** Recording sessions

    A user program, as far as the tape sees it: it creates leaves and
    applies operators to active scalars it already holds.  The scalars
    held so far are a list; an operand names one by its position. *)

Inductive BinOp : Set := OpAdd | OpSub | OpMul | OpDiv.

Inductive UnOp : Set :=
  OpInv | OpSqrt | OpExp | OpLog | OpSin | OpCos | OpTan | OpAsin | OpAcos.

Inductive Cmd : Set :=
| Leaf (v : Real)
| Bin (op : BinOp) (l r : nat)
| BinR (op : BinOp) (l : nat) (r : Real)
| BinL (op : BinOp) (l : Real) (r : nat)
| Un (f : UnOp) (x : nat)
| Pow (x : nat) (a : Real).

Definition apply_bin (op : BinOp) : AReal -> AReal -> G AReal :=
  match op with
  | OpAdd => operator_add
  | OpSub => operator_sub
  | OpMul => operator_mul
  | OpDiv => operator_div
  end.

Definition apply_bin_r (op : BinOp) : AReal -> Real -> G AReal :=
  match op with
  | OpAdd => operator_add_r
  | OpSub => operator_sub_r
  | OpMul => operator_mul_r
  | OpDiv => operator_div_r
  end.

Definition apply_bin_l (op : BinOp) : Real -> AReal -> G AReal :=
  match op with
  | OpAdd => operator_add_l
  | OpSub => operator_sub_l
  | OpMul => operator_mul_l
  | OpDiv => operator_div_l
  end.

Definition apply_un (lm : Libm) (f : UnOp) : AReal -> G AReal :=
  match f with
  | OpInv => Inv
  | OpSqrt => sqrt
  | OpExp => exp lm
  | OpLog => log lm
  | OpSin => sin lm
  | OpCos => cos lm
  | OpTan => tan lm
  | OpAsin => asin lm
  | OpAcos => acos lm
  end.

(** The scalar a program holds at position [i]; a program that names a
    scalar it does not hold is not a program. *)
Definition held (pool : list AReal) (i : nat) : G AReal :=
  fun g => match pool !! i with
           | Some a => Some (a, g)
           | None => None
           end.

Definition run_cmd (lm : Libm) (pool : list AReal) (c : Cmd) : G AReal :=
  match c with
  | Leaf v => NewAReal v
  | Bin op l r =>
      let* a := held pool l in let* b := held pool r in apply_bin op a b
  | BinR op l r => let* a := held pool l in apply_bin_r op a r
  | BinL op l r => let* b := held pool r in apply_bin_l op l b
  | Un f x => let* a := held pool x in apply_un lm f a
  | Pow x a => let* b := held pool x in pow lm b a
  end.

Fixpoint record (lm : Libm) (prog : list Cmd) (pool : list AReal) : G (list AReal) :=
  match prog with
  | [] => ret pool
  | c :: prog' =>
      let* a := run_cmd lm pool c in record lm prog' (pool ++ [a])
  end.

(** ** Predicates on tapes *)

Local Open Scope N_scope.

(** The edges of the vertex [v]: each is the self sentinel or points
    below [v], and the second exists only with the first. *)
Definition vertex_ok (v : VertexId) (x : ADVertex) : Prop :=
  (ADEdge.to (e1 x) <> v -> ADEdge.to (e1 x) < v) /\
  (ADEdge.to (e2 x) <> v -> ADEdge.to (e2 x) < v) /\
  (ADEdge.to (e2 x) <> v -> ADEdge.to (e1 x) <> v).

Definition tape_ok (g : ADGraph) : Prop :=
  forall (i : nat) (x : ADVertex),
    vertices g !! i = Some x -> vertex_ok (N.of_nat i) x.

(** Every scalar held designates a vertex of the tape. *)
Definition pool_ok (g : ADGraph) (pool : list AReal) : Prop :=
  Forall (fun a => varId a < size g) pool.

(** No identifier has wrapped. *)
Definition ids_fit (g : ADGraph) : Prop := size g <= 2 ^ UINT_BITS.

(** Every edge designates a vertex of the tape. *)
Definition edges_in_range (g : ADGraph) : Prop :=
  Forall (fun x => ADEdge.to (e1 x) < size g /\ ADEdge.to (e2 x) < size g)
         (vertices g).

(** Stored entries lie inside the dimensions. *)
Definition in_dims (m : Eigen.SparseMatrix) : Prop :=
  forall i j x, Eigen.entries m !! (i, j) = Some x ->
                i < Eigen.rows m /\ j < Eigen.cols m.

(** Stored entries lie in the upper triangle. *)
Definition upper (m : Eigen.SparseMatrix) : Prop :=
  forall i j x, Eigen.entries m !! (i, j) = Some x -> i <= j.

(** A vertex with no outgoing edge. *)
Definition is_leaf (vid : VertexId) (x : ADVertex) : bool :=
  (ADEdge.to (e1 x) =? vid).

(** ** Relations between tapes, for the proofs *)

(** What a run of accumulator writes leaves alone: the vertices and the
    dimensions; and what it keeps: entries inside the dimensions and
    inside the upper triangle. *)
Record so_frame (g g' : ADGraph) : Prop := mk_so_frame {
  sf_vertices : vertices g' = vertices g;
  sf_rows : Eigen.rows (soEdges g') = Eigen.rows (soEdges g);
  sf_cols : Eigen.cols (soEdges g') = Eigen.cols (soEdges g);
  sf_in_dims : in_dims (soEdges g) -> in_dims (soEdges g');
  sf_upper : upper (soEdges g) -> upper (soEdges g')
}.

(** Column [c] after a write whose canonical column is another one. *)
Definition same_column (c : N) (g g' : ADGraph) : Prop :=
  forall r, Eigen.entries (soEdges g') !! (r, c)
            = Eigen.entries (soEdges g) !! (r, c).

(** Entries stay inside the dimensions and inside the upper triangle. *)
Definition acc_ok (g g' : ADGraph) : Prop :=
  (in_dims (soEdges g) -> in_dims (soEdges g')) /\
  (upper (soEdges g) -> upper (soEdges g')).

(** A command [c] that, when it returns, relates the tapes by [R]. *)
Definition relates (R : ADGraph -> ADGraph -> Prop) (c : G unit) : Prop :=
  forall g g', c g = Some (tt, g') -> R g g'.

(** A tape of [n] vertices whose edges stay inside it, with an
    accumulator of dimension [n]. *)
Record ready (n : N) (g : ADGraph) : Prop := mk_ready {
  rd_size : size g = n;
  rd_rows : Eigen.rows (soEdges g) = n;
  rd_cols : Eigen.cols (soEdges g) = n;
  rd_edges : edges_in_range g
}.

(** The command returns, and on a ready tape leaves a ready tape. *)
Definition safe (n : N) (c : G unit) : Prop :=
  forall g, ready n g -> exists g', c g = Some (tt, g') /\ ready n g'.

(** The tape after a vertex was appended to [g]. *)
Definition appended (g : ADGraph) (vx : ADVertex) : ADGraph :=
  mkADGraph (vertices g ++ [vx]) (soEdges g).

(** A unary operator: one vertex, one edge to the operand. *)
Definition unary_vertex (g : ADGraph) (p : AReal) (w1 s : Real) : ADVertex :=
  mkADVertex (ADEdge.mk (varId p) w1) (ADEdge.self (size g)) 0%float s.

(** A binary operator: one vertex, an edge to each operand. *)
Definition binary_vertex (p1 p2 : AReal) (w1 w2 s : Real) : ADVertex :=
  mkADVertex (ADEdge.mk (varId p1) w1) (ADEdge.mk (varId p2) w2) 0%float s.

(** A recording step: the tape grows at its end, by vertices that
    respect the edge discipline, and the result designates the last. *)
Record step_ok (g : ADGraph) (a : AReal) (g' : ADGraph) : Prop := mk_step_ok {
  so_grows : size g < size g';
  so_result : varId a < size g';
  so_prefix : forall i, (i < length (vertices g))%nat ->
                        vertices g' !! i = vertices g !! i;
  so_new : forall i vx, (length (vertices g) <= i)%nat ->
                        vertices g' !! i = Some vx -> vertex_ok (N.of_nat i) vx
}.

(** A command that records: whenever it returns the tape has grown,
    and, if no identifier wrapped and the operands [ops] designate
    vertices, it has grown by a recording step. *)
Definition recorder (ops : list AReal) (c : G AReal) : Prop :=
  forall g a g', c g = Some (a, g') ->
    size g < size g' /\
    (ids_fit g' -> pool_ok g ops -> step_ok g a g').

(** ** Tapes and sessions for the examples *)

(** A leaf and a unary vertex over it (edge weight 3, local curvature 2),
    both with a zero adjoint. *)
Definition chain_vertices : list ADVertex :=
  [ADVertex_new 0; mkADVertex (ADEdge.mk 0 3) (ADEdge.self 1) 0 2].

(** The tape of [x = 5; f = x * x] with the adjoint 1 on [f]. *)
Definition tape_square : ADGraph :=
  mkADGraph [ADVertex_new 0; mkADVertex (ADEdge.mk 0 5) (ADEdge.mk 0 5) 1 1]
            Eigen.empty.

(** The chain with a stored diagonal entry at its unary vertex. *)
Definition tape_chain_diag : ADGraph :=
  mkADGraph chain_vertices (Eigen.mkSparse 2 2 {[ (1, 1) := 1%float ]}).

(** The chain, with the accumulator sized by the caller and nothing
    stored yet. *)
Definition tape_chain : ADGraph :=
  mkADGraph chain_vertices (Eigen.resize 2 2 Eigen.empty).

(** The tape of the square, with the accumulator as [PropagateAdjoint]
    sizes it and nothing stored. *)
Definition tape_square_empty : ADGraph :=
  mkADGraph (vertices tape_square) (Eigen.mkSparse 2 2 ∅).

(** A tape with one leaf. *)
Definition tape_one_leaf : ADGraph := mkADGraph [ADVertex_new 0] Eigen.empty.

(** An instance of [Libm] for running sessions; [std::sqrt] apart, what
    the session computes through it is not looked at. *)
Definition libm_nan : Libm :=
  mkLibm (fun _ _ => nan) (fun _ => nan) (fun _ => nan) (fun _ => nan)
         (fun _ => nan) (fun _ => nan) (fun _ => nan) (fun _ => nan).

(** [x = 3; y = 4; p = x * y; q = sqrt(p); d = 2 / q; e = d - x; h = e / y;
    k = exp(h); m = pow(k, 3)]. *)
Definition session_demo : list Cmd :=
  [Leaf 3; Leaf 4; Bin OpMul 0 1; Un OpSqrt 2; BinL OpDiv 2 3; Bin OpSub 4 0;
   Bin OpDiv 5 1; Un OpExp 6; Pow 7 3].

Definition session_demo_run : option (list AReal * ADGraph) :=
  Eval vm_compute in record libm_nan session_demo [] ADGraph_new.

(** [x = 3; z = x * x; y = 4; f = z * y], with the adjoint 1 on [f]:
    the leaf [y] is created after the product [z]. *)
Definition late_leaf : G (AReal * AReal) :=
  let* x := NewAReal 3 in
  let* z := operator_mul x x in
  let* y := NewAReal 4 in
  let* f := operator_mul z y in
  SetAdjoint f 1 ;; ret (x, y).

(** ** Predicates for the further properties *)

(** What the sweep keeps of a tape: the number of vertices, the edges and
    the local curvature of each, and the dimensions of the accumulator.
    The adjoints and the stored entries are free. *)
Record sweep_frame (g g' : ADGraph) : Prop := mk_sweep_frame {
  wf_length : length (vertices g') = length (vertices g);
  wf_vertex : forall (i : nat) (x x' : ADVertex),
      vertices g !! i = Some x -> vertices g' !! i = Some x' ->
      e1 x' = e1 x /\ e2 x' = e2 x /\ soW x' = soW x;
  wf_rows : Eigen.rows (soEdges g') = Eigen.rows (soEdges g);
  wf_cols : Eigen.cols (soEdges g') = Eigen.cols (soEdges g)
}.

(** Every vertex that is not a leaf has a zero adjoint. *)
Definition discharged (g : ADGraph) : Prop :=
  forall (i : nat) (x : ADVertex),
    vertices g !! i = Some x ->
    is_leaf (N.of_nat i) x = false -> Real_neq0 (w x) = false.

(** No vertex has a local curvature. *)
Definition flat (g : ADGraph) : Prop :=
  Forall (fun x => Real_neq0 (soW x) = false) (vertices g).

(** A recording command that does not touch the accumulator. *)
Definition keeps_soEdges (c : G AReal) : Prop :=
  forall g a g', c g = Some (a, g') -> soEdges g' = soEdges g.

(** The commands whose operator has no curvature: leaves, sums and
    differences, and products and quotients by a plain number. *)
Definition linear_cmd (c : Cmd) : bool :=
  match c with
  | Leaf _ => true
  | Bin OpAdd _ _ | Bin OpSub _ _ => true
  | BinR _ _ _ => true
  | BinL OpAdd _ _ | BinL OpSub _ _ | BinL OpMul _ _ => true
  | _ => false
  end.

(** Vertex 2 is [z = x * y] over the leaves 0 and 1, at [x = 3],
    [y = 4]; the accumulator stores (1, 2) and (2, 2). *)
Definition tape_product_entries : ADGraph :=
  mkADGraph [ADVertex_new 0; ADVertex_new 1;
             mkADVertex (ADEdge.mk 0 4) (ADEdge.mk 1 3) 0 1]
            (Eigen.mkSparse 3 3 {[ (1, 2) := 1%float; (2, 2) := 2%float ]}).

(** [x = 3; y = 4; s = x + y; t = s * 2; u = 1 - t; v = u / 4]. *)
Definition session_linear : list Cmd :=
  [Leaf 3; Leaf 4; Bin OpAdd 0 1; BinR OpMul 2 2; BinL OpSub 1 3; BinR OpDiv 4 4].

(** ** The column under the iterator, split at the diagonal *)

(** The entries of column [vid] above the diagonal, in the order the
    iterator opened at [vid] meets them. *)
Definition column_below (m : Eigen.SparseMatrix) (vid : N) : list (N * float) :=
  omap (fun r => match Eigen.entries m !! (r, vid) with
                 | Some x => Some (r, x)
                 | None => None
                 end) (map N.of_nat (seq 0 (N.to_nat vid))).

(** What is stored in [g] is stored in [g']. *)
Definition stored_mono (g g' : ADGraph) : Prop :=
  forall k, is_Some (Eigen.entries (soEdges g) !! k) ->
            is_Some (Eigen.entries (soEdges g') !! k).

(** * Properties *)

(** ** The sparse matrix *)

Section Matrix.

Implicit Types (m : Eigen.SparseMatrix) (r c i j : N) (x s : float).

Lemma in_range_spec m r c :
  Eigen.in_range m r c = true <-> r < Eigen.rows m /\ c < Eigen.cols m.
Proof.
  unfold Eigen.in_range. rewrite andb_true_iff, !N.ltb_lt. tauto.
Qed.

(** [coeffRef(r, c) += w] stores [coeff(r, c) + w] at (r, c). *)
Lemma coeffRef_add_eq m r c x :
  Eigen.in_range m r c = true ->
  Eigen.coeffRef_add r c x m
  = Some (Eigen.mkSparse (Eigen.rows m) (Eigen.cols m)
            (<[(r, c) := (Eigen.coeff m r c + x)%float]> (Eigen.entries m))).
Proof.
  intros Hr. unfold Eigen.coeffRef_add, Eigen.coeffRef, Eigen.coeff.
  rewrite Hr. destruct (Eigen.entries m !! (r, c)) as [y|] eqn:E; cbn.
  - reflexivity.
  - by rewrite insert_insert_eq.
Qed.

Lemma coeffRef_add_None m r c x :
  Eigen.in_range m r c = false -> Eigen.coeffRef_add r c x m = None.
Proof.
  intros Hr. unfold Eigen.coeffRef_add, Eigen.coeffRef. by rewrite Hr.
Qed.

Lemma elem_of_inner_indices m r :
  r ∈ Eigen.inner_indices m <-> r < Eigen.rows m.
Proof.
  unfold Eigen.inner_indices. rewrite list_elem_of_In, in_map_iff. split.
  - intros (k & <- & Hk). apply in_seq in Hk. lia.
  - intros Hr. exists (N.to_nat r). split; [apply N2Nat.id|].
    apply in_seq. lia.
Qed.

(** What the iterator on column [c] yields. *)
Lemma elem_of_InnerIterator m c r x :
  (r, x) ∈ Eigen.InnerIterator m c
  <-> Eigen.entries m !! (r, c) = Some x /\ r < Eigen.rows m.
Proof.
  unfold Eigen.InnerIterator. rewrite list_elem_of_omap. split.
  - intros (k & Hk & E). apply elem_of_inner_indices in Hk.
    destruct (Eigen.entries m !! (k, c)) as [y|] eqn:Ek; [|discriminate].
    by simplify_eq.
  - intros [E Hr]. exists r. split; [by apply elem_of_inner_indices|].
    by rewrite E.
Qed.

(** The iterator depends on the column it is opened on only. *)
Lemma InnerIterator_ext m m' c :
  Eigen.rows m' = Eigen.rows m ->
  (forall r, Eigen.entries m' !! (r, c) = Eigen.entries m !! (r, c)) ->
  Eigen.InnerIterator m' c = Eigen.InnerIterator m c.
Proof.
  intros Hrows Hcol. unfold Eigen.InnerIterator, Eigen.inner_indices.
  rewrite Hrows. induction (map N.of_nat _) as [|k l IH]; [done|].
  cbn. by rewrite Hcol, IH.
Qed.

End Matrix.

(** ** Commands on the tape *)

Section Commands.

Implicit Types (g : ADGraph) (i j vid : VertexId) (x : Real).

Lemma bind_Some {A B} (c : G A) (k : A -> G B) g b g'' :
  bind c k g = Some (b, g'') <->
  exists a g', c g = Some (a, g') /\ k a g' = Some (b, g'').
Proof.
  unfold bind. destruct (c g) as [[a g']|]; split.
  - eauto.
  - by intros (? & ? & [= <- <-] & ?).
  - discriminate.
  - by intros (? & ? & ? & ?).
Qed.

Lemma vertex_at_Some vid g v g' :
  vertex_at vid g = Some (v, g') <->
  vertices g !! N.to_nat vid = Some v /\ g' = g.
Proof.
  unfold vertex_at. destruct (vertices g !! N.to_nat vid); split;
    intros; simplify_eq; try done.
  - by destruct H as [[= ->] ->].
  - by destruct H.
Qed.

Lemma update_vertex_Some vid f g g' :
  update_vertex vid f g = Some (tt, g') <->
  exists v, vertices g !! N.to_nat vid = Some v /\
            g' = mkADGraph (<[N.to_nat vid := f v]> (vertices g)) (soEdges g).
Proof.
  unfold update_vertex. destruct (vertices g !! N.to_nat vid) as [v|]; split.
  - intros [= <-]. eauto.
  - by intros (? & [= <-] & ->).
  - discriminate.
  - by intros (? & ? & ?).
Qed.

Lemma lookup_size g vid :
  is_Some (vertices g !! N.to_nat vid) <-> vid < size g.
Proof. rewrite lookup_lt_is_Some. unfold size. lia. Qed.

(** [AddSoEdge] writes the canonical slot and nothing else. *)
Lemma AddSoEdge_Some i j x g g' :
  AddSoEdge i j x g = Some (tt, g') <->
  Eigen.in_range (soEdges g) (N.min i j) (N.max i j) = true /\
  g' = mkADGraph (vertices g)
         (Eigen.mkSparse (Eigen.rows (soEdges g)) (Eigen.cols (soEdges g))
            (<[(N.min i j, N.max i j) :=
                 (Eigen.coeff (soEdges g) (N.min i j) (N.max i j) + x)%float]>
               (Eigen.entries (soEdges g)))).
Proof.
  unfold AddSoEdge.
  destruct (Eigen.in_range (soEdges g) (N.min i j) (N.max i j)) eqn:Hr.
  - rewrite coeffRef_add_eq by done. split; [intros [= <-]|intros [_ ->]]; done.
  - rewrite coeffRef_add_None by done. split; [done|by intros []].
Qed.

Lemma so_frame_refl g : so_frame g g.
Proof. by constructor. Qed.

Lemma so_frame_trans g1 g2 g3 :
  so_frame g1 g2 -> so_frame g2 g3 -> so_frame g1 g3.
Proof.
  intros [] []. constructor; try congruence; auto.
Qed.

Lemma AddSoEdge_frame i j x g g' :
  AddSoEdge i j x g = Some (tt, g') -> so_frame g g'.
Proof.
  intros [Hr ->]%AddSoEdge_Some. apply in_range_spec in Hr as [Hi Hj].
  constructor; cbn; try done.
  - intros Hd a b y. cbn. rewrite lookup_insert. case_decide; [|by apply Hd].
    intros _. by simplify_eq.
  - intros Hu a b y. cbn. rewrite lookup_insert. case_decide; [|by apply Hu].
    intros _. simplify_eq. lia.
Qed.

Lemma AddSoEdge_column c i j x g g' :
  N.max i j <> c ->
  AddSoEdge i j x g = Some (tt, g') -> same_column c g g'.
Proof.
  intros Hc [_ ->]%AddSoEdge_Some r. cbn.
  rewrite lookup_insert_ne; [done|congruence].
Qed.

Lemma relates_ret R : (forall g, R g g) -> relates R (ret tt).
Proof. intros HR g g' [= <-]. apply HR. Qed.

Lemma relates_seq R (c : G unit) (k : G unit) :
  (forall g1 g2 g3, R g1 g2 -> R g2 g3 -> R g1 g3) ->
  relates R c -> relates R k -> relates R (c ;; k).
Proof.
  intros Ht Hc Hk g g' ([] & g1 & H1 & H2)%bind_Some. eauto.
Qed.

Lemma relates_for_each {A} R (l : list A) (body : A -> G unit) :
  (forall g, R g g) ->
  (forall g1 g2 g3, R g1 g2 -> R g2 g3 -> R g1 g3) ->
  (forall a, a ∈ l -> relates R (body a)) ->
  relates R (for_each l body).
Proof.
  intros Hr Ht. induction l as [|a l IH]; intros Hb; cbn.
  - by apply relates_ret.
  - apply relates_seq; [done|apply Hb; left|apply IH].
    intros b Hin. apply Hb. by right.
Qed.

End Commands.

(** ** The pushing loop *)

Section Pushing.

Implicit Types (g : ADGraph) (vid : VertexId) (fo so ea eb : ADEdge.t).

Lemma same_column_refl c g : same_column c g g.
Proof. by intros r. Qed.

Lemma same_column_trans c g1 g2 g3 :
  same_column c g1 g2 -> same_column c g2 g3 -> same_column c g1 g3.
Proof. intros H1 H2 r. by rewrite H2, H1. Qed.

Lemma PushEdge_frame fo so : relates so_frame (PushEdge fo so).
Proof.
  intros g g'. unfold PushEdge. case (_ =? _); apply AddSoEdge_frame.
Qed.

Lemma PushEdge_column c fo so :
  ADEdge.to fo <> c -> ADEdge.to so <> c ->
  relates (same_column c) (PushEdge fo so).
Proof.
  intros Hf Hs g g'. unfold PushEdge.
  case (_ =? _); apply AddSoEdge_column; lia.
Qed.

Create HintDb frame.
Local Hint Resolve so_frame_refl so_frame_trans same_column_refl
  same_column_trans : frame.

Lemma push_entry_frame vid ea eb it : relates so_frame (push_entry vid ea eb it).
Proof.
  unfold push_entry.
  destruct (negb (_ =? vid)), (negb (ADEdge.to eb =? vid));
    repeat first
      [ apply relates_seq; [eauto with frame| |]
      | apply relates_ret; eauto with frame
      | apply PushEdge_frame
      | intros g g'; apply AddSoEdge_frame ].
Qed.

(** No write of the loop body at [vid] lands in column [vid]: the edges
    pushed through do not point to [vid], and an off-diagonal entry has
    its other end different from [vid]. *)
Lemma push_entry_column vid ea eb it :
  ADEdge.to ea <> vid ->
  relates (same_column vid) (push_entry vid ea eb it).
Proof.
  intros Ha. unfold push_entry. cbn [ADEdge.to ADEdge.w].
  destruct (N.eqb_spec (fst it) vid) as [Ei|Ei],
           (N.eqb_spec (ADEdge.to eb) vid) as [Eb|Eb]; cbn [negb].
  - apply relates_seq; [eauto with frame| |apply relates_ret; eauto with frame].
    intros g g'. apply AddSoEdge_column. lia.
  - repeat (apply relates_seq; [eauto with frame| |]);
      intros g g'; apply AddSoEdge_column; lia.
  - apply relates_seq; [eauto with frame| |apply relates_ret; eauto with frame].
    by apply PushEdge_column.
  - apply relates_seq; [eauto with frame| |]; by apply PushEdge_column.
Qed.

Lemma pushing_frame vid ea eb : relates so_frame (pushing vid ea eb).
Proof.
  intros g g'. unfold pushing.
  apply (relates_for_each so_frame); eauto with frame.
  intros it _. apply push_entry_frame.
Qed.

(** The column under the iterator is not written while it is iterated. *)
Lemma pushing_keeps_column vid ea eb :
  ADEdge.to ea <> vid -> relates (same_column vid) (pushing vid ea eb).
Proof.
  intros Ha g g'. unfold pushing.
  apply (relates_for_each (same_column vid)); eauto with frame.
  intros it _. by apply push_entry_column.
Qed.

(** So the iterator opened at [vid] would yield the same entries at any
    point of the loop. *)
Lemma pushing_iterator_stable vid ea eb g g' :
  ADEdge.to ea <> vid ->
  pushing vid ea eb g = Some (tt, g') ->
  Eigen.InnerIterator (soEdges g') vid = Eigen.InnerIterator (soEdges g) vid.
Proof.
  intros Ha E. apply InnerIterator_ext.
  - by apply pushing_frame in E as [].
  - by apply pushing_keeps_column in E.
Qed.

(** With a zero adjoint the visit of a vertex is its pushing loop. *)
Lemma visit_zero_adjoint vid g vertex :
  vertices g !! N.to_nat vid = Some vertex ->
  is_leaf vid vertex = false ->
  Real_neq0 (w vertex) = false ->
  visit vid g = pushing vid (e1 vertex) (e2 vertex) g.
Proof.
  intros Hv Hl Hw. unfold visit, bind at 1, vertex_at at 1. rewrite Hv.
  unfold is_leaf in Hl. rewrite Hl. unfold bind at 1.
  destruct (pushing vid (e1 vertex) (e2 vertex) g) as [[[] g1]|] eqn:Hp; [|done].
  apply pushing_frame in Hp as [Hvs _ _ _ _].
  unfold bind, vertex_at. rewrite Hvs, Hv, Hw. done.
Qed.

End Pushing.

(** ** Running the sweep without leaving the tape *)

Section Safety.

Variable n : N.

Implicit Types (g : ADGraph) (vid i j : VertexId) (ea eb : ADEdge.t).

Lemma safe_ret : safe n (ret tt).
Proof. intros g Hg. by exists g. Qed.

Lemma safe_seq (c k : G unit) : safe n c -> safe n k -> safe n (c ;; k).
Proof.
  intros Hc Hk g Hg. destruct (Hc g Hg) as (g1 & E1 & Hg1).
  destruct (Hk g1 Hg1) as (g2 & E2 & Hg2). exists g2. split; [|done].
  unfold bind. by rewrite E1.
Qed.

Lemma safe_for_each {A} (l : list A) (body : A -> G unit) :
  Forall (fun a => safe n (body a)) l -> safe n (for_each l body).
Proof.
  induction 1 as [|a l Ha _ IH]; cbn; [apply safe_ret|by apply safe_seq].
Qed.

Lemma AddSoEdge_safe i j x : i < n -> j < n -> safe n (AddSoEdge i j x).
Proof.
  intros Hi Hj g [Hs Hr Hc He]. eexists. split.
  - apply AddSoEdge_Some. split; [|reflexivity].
    apply in_range_spec. lia.
  - by constructor.
Qed.

Lemma PushEdge_safe fo so :
  ADEdge.to fo < n -> ADEdge.to so < n -> safe n (PushEdge fo so).
Proof.
  intros Hf Hs. unfold PushEdge. case (_ =? _); by apply AddSoEdge_safe.
Qed.

Lemma push_entry_safe vid ea eb it :
  ADEdge.to ea < n -> ADEdge.to eb < n -> fst it < n ->
  safe n (push_entry vid ea eb it).
Proof.
  intros Ha Hb Hi. unfold push_entry.
  destruct (negb (_ =? vid)), (negb (ADEdge.to eb =? vid));
    repeat first
      [ apply safe_seq | apply safe_ret
      | apply PushEdge_safe; cbn; done | apply AddSoEdge_safe; done ].
Qed.

Lemma pushing_safe vid ea eb :
  ADEdge.to ea < n -> ADEdge.to eb < n -> safe n (pushing vid ea eb).
Proof.
  intros Ha Hb g Hg. unfold pushing. apply safe_for_each; [|done].
  apply Forall_forall. intros [r x] Hin.
  apply elem_of_InnerIterator in Hin as [_ Hr].
  apply push_entry_safe; try done. cbn. by rewrite (rd_rows n g Hg) in Hr.
Qed.

Lemma update_vertex_safe i (f : ADVertex -> ADVertex) :
  i < n -> (forall v, e1 (f v) = e1 v /\ e2 (f v) = e2 v) ->
  safe n (update_vertex i f).
Proof.
  intros Hi Hf g [Hs Hr Hc He].
  destruct (proj2 (lookup_size g i)) as [v Hv]; [lia|].
  eexists. split; [apply update_vertex_Some; eauto|].
  assert (Hlen : size (mkADGraph (<[N.to_nat i := f v]> (vertices g)) (soEdges g))
                 = size g).
  { unfold size. cbn. by rewrite length_insert. }
  constructor; cbn; try done; [congruence|].
  unfold edges_in_range. rewrite Hlen. cbn. apply Forall_insert; [done|].
  destruct (Hf v) as [-> ->].
  unfold edges_in_range in He. rewrite Forall_forall in He.
  apply He. by eapply list_elem_of_lookup_2.
Qed.

Lemma creating_safe vid vertex a :
  ADEdge.to (e1 vertex) < n -> ADEdge.to (e2 vertex) < n ->
  safe n (creating vid vertex a).
Proof.
  intros H1 H2. unfold creating.
  destruct (Real_neq0 _); [|apply safe_ret].
  case (_ =? vid); by apply AddSoEdge_safe.
Qed.

Lemma adjoint_safe vid vertex a :
  vid < n -> ADEdge.to (e1 vertex) < n -> ADEdge.to (e2 vertex) < n ->
  safe n (adjoint vid vertex a).
Proof.
  intros Hv H1 H2. unfold adjoint.
  repeat apply safe_seq; try (by apply update_vertex_safe).
  destruct (negb _); [by apply update_vertex_safe|apply safe_ret].
Qed.

Lemma ready_lookup g (k : nat) v :
  ready n g -> vertices g !! k = Some v ->
  ADEdge.to (e1 v) < n /\ ADEdge.to (e2 v) < n.
Proof.
  intros [Hs _ _ He] Hv. unfold edges_in_range in He.
  rewrite Forall_forall, Hs in He. apply He.
  by eapply list_elem_of_lookup_2.
Qed.

Lemma visit_safe vid : vid < n -> safe n (visit vid).
Proof.
  intros Hvid g Hg.
  destruct (proj2 (lookup_size g vid)) as [vertex Hv];
    [by rewrite (rd_size n g Hg)|].
  destruct (ready_lookup g _ _ Hg Hv) as [H1 H2].
  unfold visit, bind at 1, vertex_at at 1. rewrite Hv.
  destruct (_ =? vid); [by apply safe_ret|].
  destruct (pushing_safe vid _ _ H1 H2 g Hg) as (g1 & Ep & Hg1).
  unfold bind at 1. rewrite Ep.
  destruct (proj2 (lookup_size g1 vid)) as [now Hn];
    [by rewrite (rd_size n g1 Hg1)|].
  unfold bind at 1, vertex_at. rewrite Hn.
  destruct (Real_neq0 _); [|by apply safe_ret].
  apply safe_seq; [by apply creating_safe|by apply adjoint_safe|done].
Qed.

Lemma sweep_safe (k : nat) : N.of_nat k < n -> safe n (sweep k).
Proof.
  induction k as [|k IH]; intros Hk; cbn [sweep]; [apply safe_ret|].
  apply safe_seq; [apply visit_safe; lia|apply IH; lia].
Qed.

End Safety.

Lemma first_vid_pos (n : N) :
  1 <= n <= 2 ^ UINT_BITS -> first_vid n = n - 1.
Proof.
  unfold first_vid, to_VertexId.
  change (2 ^ UINT_BITS) with 4294967296.
  change (2 ^ SIZE_BITS - 1) with 18446744073709551615.
  change (2 ^ SIZE_BITS) with 18446744073709551616.
  intros [Hn1 Hn2].
  replace (n + 18446744073709551615)
    with ((n - 1) + 1 * 18446744073709551616) by lia.
  rewrite N.Div0.mod_add.
  rewrite (N.mod_small (n - 1) 18446744073709551616) by lia.
  apply N.mod_small. lia.
Qed.

Lemma first_vid_0 : first_vid 0 = 2 ^ UINT_BITS - 1.
Proof. vm_compute. reflexivity. Qed.

(** On a tape with no vertex the first visit reads outside the vector. *)
Lemma PropagateAdjoint_empty m : PropagateAdjoint (mkADGraph [] m) = None.
Proof.
  unfold PropagateAdjoint, bind, resize_soEdges, size.
  cbn [vertices length]. change (N.of_nat 0) with 0. rewrite first_vid_0.
  destruct (N.to_nat (2 ^ UINT_BITS - 1)) as [|k] eqn:E.
  - assert (H : 2 ^ UINT_BITS - 1 = 4294967295) by (vm_compute; reflexivity).
    rewrite H in E. lia.
  - cbn [sweep]. unfold bind, visit, bind, vertex_at. cbn [vertices].
    by rewrite lookup_nil.
Qed.

Lemma PropagateAdjoint_returns g :
  vertices g <> [] -> ids_fit g -> edges_in_range g ->
  exists g', PropagateAdjoint g = Some (tt, g').
Proof.
  intros Hne Hfit He.
  assert (Hn : 1 <= size g).
  { unfold size. destruct (vertices g); [done|cbn; lia]. }
  unfold PropagateAdjoint, bind, resize_soEdges.
  set (g0 := mkADGraph _ _).
  assert (Hs : size g0 = size g) by done.
  rewrite Hs, first_vid_pos by (unfold ids_fit in Hfit; lia).
  destruct (sweep_safe (size g) (N.to_nat (size g - 1)) ltac:(lia) g0)
    as (g' & E & _); [by constructor|].
  by exists g'.
Qed.

(** ** Recording *)

Section Recording.

Implicit Types (g : ADGraph) (l r p a : AReal) (v x s : Real).

Lemma size_appended g vx : size (appended g vx) = size g + 1.
Proof. unfold size, appended. cbn. rewrite length_app. cbn. lia. Qed.

Lemma to_VertexId_small k : k < 2 ^ UINT_BITS -> to_VertexId k = k.
Proof. apply N.mod_small. Qed.

Lemma update_last g vx (f : ADVertex -> ADVertex) :
  update_vertex (size g) f (appended g vx) = Some (tt, appended g (f vx)).
Proof.
  unfold update_vertex, appended, size. cbn. rewrite Nat2N.id.
  rewrite list_lookup_middle by done. f_equal. f_equal. f_equal.
  rewrite insert_app_r_alt by done. by rewrite Nat.sub_diag.
Qed.

Lemma record_unary g p v w1 s :
  size g < 2 ^ UINT_BITS ->
  (let* ret' := NewAReal v in AddEdge1 ret' p w1 s ;; ret ret') g
  = Some (mkAReal v (size g), appended g (unary_vertex g p w1 s)).
Proof.
  intros Hfit. unfold bind at 1, NewAReal.
  rewrite to_VertexId_small by done. fold (appended g (ADVertex_new (size g))).
  unfold bind, AddEdge1. cbn [varId]. by rewrite update_last.
Qed.

Lemma record_binary g p1 p2 v w1 w2 s :
  size g < 2 ^ UINT_BITS ->
  (let* ret' := NewAReal v in AddEdge2 ret' p1 p2 w1 w2 s ;; ret ret') g
  = Some (mkAReal v (size g), appended g (binary_vertex p1 p2 w1 w2 s)).
Proof.
  intros Hfit. unfold bind at 1, NewAReal.
  rewrite to_VertexId_small by done. fold (appended g (ADVertex_new (size g))).
  unfold bind, AddEdge2. cbn [varId]. by rewrite update_last.
Qed.

Lemma step_appended g a vx :
  varId a = size g -> vertex_ok (size g) vx -> step_ok g a (appended g vx).
Proof.
  intros Ha Hvx. constructor.
  - rewrite size_appended. lia.
  - rewrite size_appended. lia.
  - intros i Hi. unfold appended. cbn. by rewrite lookup_app_l.
  - intros i vy Hi. unfold appended. cbn. intros Hl.
    assert (i = length (vertices g)) as ->.
    { apply lookup_lt_Some in Hl. rewrite length_app in Hl. cbn in Hl. lia. }
    rewrite list_lookup_middle in Hl by done. by simplify_eq.
Qed.

Lemma unary_vertex_ok g p w1 s :
  varId p < size g -> vertex_ok (size g) (unary_vertex g p w1 s).
Proof. intros Hp. unfold vertex_ok. cbn. lia. Qed.

Lemma binary_vertex_ok g p1 p2 w1 w2 s :
  varId p1 < size g -> varId p2 < size g ->
  vertex_ok (size g) (binary_vertex p1 p2 w1 w2 s).
Proof. intros H1 H2. unfold vertex_ok. cbn. lia. Qed.

Lemma step_ok_trans g1 a1 g2 a2 g3 :
  step_ok g1 a1 g2 -> step_ok g2 a2 g3 -> step_ok g1 a2 g3.
Proof.
  intros [G1 R1 P1 N1] [G2 R2 P2 N2].
  assert (Hlen : (length (vertices g1) < length (vertices g2))%nat)
    by (unfold size in G1; lia).
  constructor; [lia|done| |].
  - intros i Hi. rewrite P2 by lia. by apply P1.
  - intros i vx Hi Hl.
    destruct (Nat.lt_ge_cases i (length (vertices g2))) as [Hlt|Hge].
    + rewrite P2 in Hl by done. by apply N1.
    + by apply N2.
Qed.

End Recording.

Section Recorders.

Implicit Types (g : ADGraph) (l r p a : AReal) (v x s : Real).

Lemma update_vertex_size i f g g' :
  update_vertex i f g = Some (tt, g') -> size g' = size g.
Proof.
  intros (v & _ & ->)%update_vertex_Some. unfold size. cbn.
  by rewrite length_insert.
Qed.

Lemma NewAReal_Some v g a g' :
  NewAReal v g = Some (a, g') ->
  g' = appended g (ADVertex_new (to_VertexId (size g))).
Proof. by intros [= <- <-]. Qed.

Lemma recorder_unary p v w1 s :
  recorder [p] (let* ret' := NewAReal v in AddEdge1 ret' p w1 s ;; ret ret').
Proof.
  intros g a g' E.
  assert (Hsz : size g' = size g + 1).
  { apply bind_Some in E as (a0 & g0 & ->%NewAReal_Some & E).
    apply bind_Some in E as ([] & g1 & E & [= _ <-]).
    apply update_vertex_size in E. by rewrite E, size_appended. }
  split; [lia|]. intros Hfit Hp%Forall_inv.
  unfold ids_fit in Hfit. rewrite record_unary in E by lia.
  simplify_eq. apply step_appended; [done|by apply unary_vertex_ok].
Qed.

Lemma recorder_binary p1 p2 v w1 w2 s :
  recorder [p1; p2]
    (let* ret' := NewAReal v in AddEdge2 ret' p1 p2 w1 w2 s ;; ret ret').
Proof.
  intros g a g' E.
  assert (Hsz : size g' = size g + 1).
  { apply bind_Some in E as (a0 & g0 & ->%NewAReal_Some & E).
    apply bind_Some in E as ([] & g1 & E & [= _ <-]).
    apply update_vertex_size in E. by rewrite E, size_appended. }
  split; [lia|]. intros Hfit Hp.
  apply Forall_cons in Hp as [H1 H2%Forall_inv].
  unfold ids_fit in Hfit. rewrite record_binary in E by lia.
  simplify_eq. apply step_appended; [done|by apply binary_vertex_ok].
Qed.

(** An operator applied to the result of [Inv]. *)
Lemma recorder_after_Inv r (ops : list AReal) (k : AReal -> G AReal) :
  (forall i, recorder (i :: ops) (k i)) ->
  recorder (r :: ops) (let* i := Inv r in k i).
Proof.
  intros Hk g a g' (i & g1 & Ei & Ek)%bind_Some.
  apply (recorder_unary r) in Ei as [G1 S1].
  apply Hk in Ek as [G2 S2].
  split; [lia|]. intros Hfit Hp.
  assert (Hfit1 : ids_fit g1) by (unfold ids_fit in *; lia).
  apply Forall_cons in Hp as [Hr Hops].
  specialize (S1 Hfit1 ltac:(by repeat constructor)).
  eapply step_ok_trans; [exact S1|]. apply S2; [done|].
  constructor; [by destruct S1|].
  eapply Forall_impl; [exact Hops|]. cbn. intros. lia.
Qed.

Local Ltac sublist_solver :=
  intros ?; rewrite !elem_of_cons, ?elem_of_nil; tauto.

Lemma recorder_weaken (ops ops' : list AReal) c :
  ops ⊆ ops' -> recorder ops c -> recorder ops' c.
Proof.
  intros Hsub Hc g a g' E. destruct (Hc g a g' E) as [Hg Hs].
  split; [done|]. intros Hfit Hp. apply Hs; [done|].
  unfold pool_ok in *. rewrite Forall_forall in *. auto.
Qed.

Lemma apply_bin_recorder op l r : recorder [l; r] (apply_bin op l r).
Proof.
  destruct op; cbn; try apply recorder_binary.
  unfold operator_div. apply (recorder_weaken [r; l]); [sublist_solver|].
  apply (recorder_after_Inv r [l]). intros i.
  apply (recorder_weaken [l; i]); [sublist_solver|apply recorder_binary].
Qed.

Lemma apply_bin_r_recorder op l x : recorder [l] (apply_bin_r op l x).
Proof. destruct op; cbn; apply recorder_unary. Qed.

Lemma apply_bin_l_recorder op x r : recorder [r] (apply_bin_l op x r).
Proof.
  destruct op; cbn; try apply recorder_unary.
  unfold operator_div_l. apply (recorder_after_Inv r []). intros i.
  apply (recorder_weaken [i]); [sublist_solver|apply recorder_unary].
Qed.

Lemma apply_un_recorder lm f p : recorder [p] (apply_un lm f p).
Proof. destruct f; cbn; apply recorder_unary. Qed.

Lemma pow_recorder lm p x : recorder [p] (pow lm p x).
Proof. apply recorder_unary. Qed.

Lemma NewAReal_recorder v : recorder [] (NewAReal v).
Proof.
  intros g a g' E. pose proof (NewAReal_Some _ _ _ _ E) as ->.
  rewrite size_appended. split; [lia|]. intros Hfit _.
  unfold NewAReal in E. simplify_eq.
  unfold ids_fit in Hfit. rewrite size_appended in Hfit.
  rewrite to_VertexId_small by lia.
  apply step_appended; [done|]. unfold vertex_ok. cbn. lia.
Qed.

End Recorders.

Section Sessions.

Variable lm : Libm.

Implicit Types (g : ADGraph) (pool : list AReal) (prog : list Cmd).

Lemma held_Some pool (i : nat) g a g' :
  held pool i g = Some (a, g') <-> pool !! i = Some a /\ g' = g.
Proof.
  unfold held. destruct (pool !! i); split; intros; simplify_eq; try done.
  - by destruct H as [[= ->] ->].
  - by destruct H.
Qed.

Lemma pool_ok_lookup g pool (i : nat) a :
  pool_ok g pool -> pool !! i = Some a -> varId a < size g.
Proof. intros Hp Hi. by apply (Forall_lookup_1 _ _ _ _ Hp Hi). Qed.

Lemma run_cmd_recorder pool c g a g' :
  run_cmd lm pool c g = Some (a, g') ->
  size g < size g' /\ (ids_fit g' -> pool_ok g pool -> step_ok g a g').
Proof.
  destruct c as [v|op l r|op l r|op l r|f x|x e]; cbn [run_cmd]; intros E.
  - destruct (NewAReal_recorder v g a g' E) as [Hg Hs].
    split; [done|]. intros Hfit _. apply Hs; [done|constructor].
  - apply bind_Some in E as (a1 & ? & [H1 ->]%held_Some & E).
    apply bind_Some in E as (a2 & ? & [H2 ->]%held_Some & E).
    destruct (apply_bin_recorder op a1 a2 g a g' E) as [Hg Hs].
    split; [done|]. intros Hfit Hp. apply Hs; [done|].
    repeat constructor; by eapply pool_ok_lookup.
  - apply bind_Some in E as (a1 & ? & [H1 ->]%held_Some & E).
    destruct (apply_bin_r_recorder op a1 r g a g' E) as [Hg Hs].
    split; [done|]. intros Hfit Hp. apply Hs; [done|].
    repeat constructor; by eapply pool_ok_lookup.
  - apply bind_Some in E as (a1 & ? & [H1 ->]%held_Some & E).
    destruct (apply_bin_l_recorder op l a1 g a g' E) as [Hg Hs].
    split; [done|]. intros Hfit Hp. apply Hs; [done|].
    repeat constructor; by eapply pool_ok_lookup.
  - apply bind_Some in E as (a1 & ? & [H1 ->]%held_Some & E).
    destruct (apply_un_recorder lm f a1 g a g' E) as [Hg Hs].
    split; [done|]. intros Hfit Hp. apply Hs; [done|].
    repeat constructor; by eapply pool_ok_lookup.
  - apply bind_Some in E as (a1 & ? & [H1 ->]%held_Some & E).
    destruct (pow_recorder lm a1 e g a g' E) as [Hg Hs].
    split; [done|]. intros Hfit Hp. apply Hs; [done|].
    repeat constructor; by eapply pool_ok_lookup.
Qed.

Lemma step_tape_ok g a g' : step_ok g a g' -> tape_ok g -> tape_ok g'.
Proof.
  intros [_ _ Hpre Hnew] Hok i vx Hi.
  destruct (Nat.lt_ge_cases i (length (vertices g))) as [Hlt|Hge].
  - rewrite Hpre in Hi by done. by apply Hok.
  - by apply Hnew.
Qed.

Lemma step_pool_ok g a g' pool :
  step_ok g a g' -> pool_ok g pool -> pool_ok g' (pool ++ [a]).
Proof.
  intros [Hg Hr _ _] Hp. apply Forall_app. split.
  - eapply Forall_impl; [exact Hp|]. cbn. intros. lia.
  - by repeat constructor.
Qed.

Lemma record_size prog : forall pool g pool' g',
  record lm prog pool g = Some (pool', g') -> size g <= size g'.
Proof.
  induction prog as [|c prog IH]; intros pool g pool' g'; cbn [record].
  - intros [= _ <-]. lia.
  - intros (a & g1 & E1 & E2)%bind_Some.
    apply run_cmd_recorder in E1 as [Hg _]. apply IH in E2. lia.
Qed.

Lemma record_ok prog : forall pool g pool' g',
  record lm prog pool g = Some (pool', g') ->
  ids_fit g' -> tape_ok g -> pool_ok g pool ->
  tape_ok g' /\ pool_ok g' pool'.
Proof.
  induction prog as [|c prog IH]; intros pool g pool' g'; cbn [record].
  - by intros [= <- <-].
  - intros (a & g1 & E1 & E2)%bind_Some Hfit Hok Hp.
    pose proof (record_size _ _ _ _ _ E2) as Hsz.
    apply run_cmd_recorder in E1 as [_ Hs].
    assert (Hfit1 : ids_fit g1) by (unfold ids_fit in *; lia).
    specialize (Hs Hfit1 Hp).
    eapply IH; [exact E2|done|by eapply step_tape_ok|by eapply step_pool_ok].
Qed.

End Sessions.

(** ** What the sweep keeps of the accumulator *)

Section SweepAccumulator.

Implicit Types (g : ADGraph) (vid : VertexId).

Lemma acc_ok_refl g : acc_ok g g.
Proof. by split. Qed.

Lemma acc_ok_trans g1 g2 g3 : acc_ok g1 g2 -> acc_ok g2 g3 -> acc_ok g1 g3.
Proof. intros [] []. split; auto. Qed.

Lemma so_frame_acc_ok g g' : so_frame g g' -> acc_ok g g'.
Proof. intros []. by split. Qed.

Lemma update_vertex_soEdges vid f g g' :
  update_vertex vid f g = Some (tt, g') -> soEdges g' = soEdges g.
Proof. by intros (v & _ & ->)%update_vertex_Some. Qed.

Lemma update_vertex_acc_ok vid f : relates acc_ok (update_vertex vid f).
Proof.
  intros g g' E%update_vertex_soEdges. unfold acc_ok. by rewrite E.
Qed.

Lemma creating_frame vid vertex a : relates so_frame (creating vid vertex a).
Proof.
  unfold creating. destruct (Real_neq0 _); [|apply relates_ret, so_frame_refl].
  case (_ =? vid); intros g g'; apply AddSoEdge_frame.
Qed.

Lemma adjoint_acc_ok vid vertex a : relates acc_ok (adjoint vid vertex a).
Proof.
  unfold adjoint.
  repeat (apply relates_seq; [apply acc_ok_trans|apply update_vertex_acc_ok|]).
  destruct (negb _); [apply update_vertex_acc_ok|].
  apply relates_ret, acc_ok_refl.
Qed.

Lemma visit_acc_ok vid : relates acc_ok (visit vid).
Proof.
  intros g g' (vertex & ? & [Hv ->]%vertex_at_Some & E)%bind_Some.
  destruct (_ =? vid).
  { injection E as <-. apply acc_ok_refl. }
  apply bind_Some in E as ([] & g1 & Ep%pushing_frame%so_frame_acc_ok & E).
  apply bind_Some in E as (now & ? & [_ ->]%vertex_at_Some & E).
  eapply acc_ok_trans; [exact Ep|]. cbv zeta in E.
  destruct (Real_neq0 _); [|injection E as <-; apply acc_ok_refl].
  apply bind_Some in E as ([] & g2 & Ec%creating_frame%so_frame_acc_ok & E).
  eapply acc_ok_trans; [exact Ec|]. by eapply adjoint_acc_ok.
Qed.

Lemma sweep_acc_ok (k : nat) : relates acc_ok (sweep k).
Proof.
  induction k as [|k IH]; cbn [sweep].
  - apply relates_ret, acc_ok_refl.
  - apply relates_seq; [apply acc_ok_trans|apply visit_acc_ok|exact IH].
Qed.

(** After propagation the accumulator holds upper-triangle entries only,
    whatever it held before. *)
Lemma PropagateAdjoint_acc g g' :
  PropagateAdjoint g = Some (tt, g') ->
  in_dims (soEdges g') /\ upper (soEdges g').
Proof.
  intros ([] & g0 & [= <-] & E)%bind_Some.
  apply sweep_acc_ok in E as [Hd Hu]. split; [apply Hd|apply Hu];
    intros i j x; cbn; by rewrite lookup_empty.
Qed.

End SweepAccumulator.

(** * The claims *)

Local Open Scope float_scope.

(** C3. On a fresh tape, with the leaf [x = 5] and [f = x * x], after
    seeding the adjoint 1 on [f] and propagating: [f.val] is 25, the
    adjoint stored for [x] is 10, and the accumulator entry at (x, x)
    is 2. *)
Theorem C3_square_at_5 :
  exists g, scenario_square ADGraph_new = Some ((25, 10, 2), g).
Proof. eexists. vm_compute. reflexivity. Qed.

(** C5. On a fresh tape, with the leaves [x = 1], [y = 1] and
    [f = log(x*x + y*y)], after seeding the adjoint 1 on [f] and
    propagating: [f.val] is [log 2], the adjoints stored for [x] and [y]
    are 1, the accumulator entries at (x, x) and (y, y) are 0 and the
    entry at (x, y) is -1. *)
Theorem C5_log_of_squares (lm : Libm) :
  exists g, scenario_log lm ADGraph_new
            = Some ((std_log lm 2, (1, 1), (0, 0, -1)), g).
Proof. eexists. vm_compute. reflexivity. Qed.

Local Open Scope N_scope.

(** C9. The sweep starts at [vertices.size() - 1] converted to
    [VertexId].  On a tape with no vertex this is the largest
    [unsigned int], the first vertex access is outside the vector, and
    [PropagateAdjoint] does not return; on a tape whose identifiers fit
    and whose edges designate vertices of the tape, [PropagateAdjoint]
    returns exactly when the tape holds at least one vertex. *)
Theorem C9_propagate_needs_a_vertex (g : ADGraph) :
  ids_fit g -> edges_in_range g ->
  (vertices g = [] ->
     first_vid (size g) = 2 ^ UINT_BITS - 1 /\
     vertex_at (first_vid (size g)) g = None /\
     PropagateAdjoint g = None) /\
  (vertices g <> [] -> exists g', PropagateAdjoint g = Some (tt, g')).
Proof.
  intros Hfit He. split.
  - intros Hnil. destruct g as [vs m]. cbn in Hnil. subst vs.
    split; [apply first_vid_0|]. split; [|apply PropagateAdjoint_empty].
    unfold vertex_at. cbn. by rewrite lookup_nil.
  - intros Hne. by apply PropagateAdjoint_returns.
Qed.

Lemma tape_square_recorded :
  exec (let* x := NewAReal 5 in let* f := operator_mul x x in SetAdjoint f 1)
       ADGraph_new = Some tape_square.
Proof. vm_compute. reflexivity. Qed.

Lemma C9_witness : exists g', PropagateAdjoint tape_square = Some (tt, g').
Proof.
  apply (C9_propagate_needs_a_vertex tape_square).
  - unfold ids_fit. vm_compute. discriminate.
  - repeat constructor.
  - discriminate.
Defined.

(** C7. When the sweep visits a vertex that is not a leaf and whose
    adjoint is zero, the visit is the pushing loop alone: nothing is
    created from [soW], and no vertex record changes, so the adjoints of
    the parents and of the vertex itself are as before. *)
Theorem C7_zero_adjoint_visit (vid : VertexId) (g : ADGraph) (vertex : ADVertex) :
  vertices g !! N.to_nat vid = Some vertex ->
  is_leaf vid vertex = false ->
  Real_neq0 (w vertex) = false ->
  visit vid g = pushing vid (e1 vertex) (e2 vertex) g /\
  forall g', visit vid g = Some (tt, g') -> vertices g' = vertices g.
Proof.
  intros Hv Hl Hw. rewrite (visit_zero_adjoint vid g vertex) by done.
  split; [done|]. intros g' Hp. by apply pushing_frame in Hp as [].
Qed.

Lemma C7_witness :
  visit 1 tape_chain_diag
  = pushing 1 (ADEdge.mk 0 3) (ADEdge.self 1) tape_chain_diag /\
  forall g', visit 1 tape_chain_diag = Some (tt, g') ->
             vertices g' = vertices tape_chain_diag.
Proof.
  apply (C7_zero_adjoint_visit 1 tape_chain_diag
           (mkADVertex (ADEdge.mk 0 3) (ADEdge.self 1) 0 2));
    reflexivity.
Defined.

(** The visit of the witness returns: the diagonal entry is pushed to
    the parent, with weight 3 * 3 * 1, and nothing else happens. *)
Example visit_chain_diag :
  exec (visit 1) tape_chain_diag
  = Some (mkADGraph chain_vertices
            (Eigen.mkSparse 2 2 (<[(0, 0) := 9%float]> {[ (1, 1) := 1%float ]}))).
Proof. vm_compute. reflexivity. Qed.

Lemma GetAdjoint2_Some (a b : AReal) (g : ADGraph) (x : Real) (g' : ADGraph) :
  GetAdjoint2 a b g = Some (x, g') ->
  let r := N.min (varId a) (varId b) in
  let c := N.max (varId a) (varId b) in
  Eigen.in_range (soEdges g) r c = true /\
  x = Eigen.coeff (soEdges g) r c /\
  vertices g' = vertices g /\
  (Eigen.entries (soEdges g') = Eigen.entries (soEdges g) \/
   Eigen.entries (soEdges g) !! (r, c) = None /\
   Eigen.entries (soEdges g') = <[(r, c) := 0%float]> (Eigen.entries (soEdges g))).
Proof.
  unfold GetAdjoint2, Eigen.coeffRef, Eigen.coeff. cbv zeta.
  destruct (Eigen.in_range _ _ _); [|done].
  destruct (Eigen.entries (soEdges g) !! _) as [y|] eqn:E.
  - intros [= <- <-]. repeat split; try done. by left.
  - intros [= <- <-]. repeat split; try done. by right.
Qed.

(** C8. Every write to the accumulator goes to the slot
    (min(i,j), max(i,j)): [AddSoEdge] changes that slot only, it and the
    pairwise read keep every stored entry in the upper triangle, after
    [PropagateAdjoint] every stored entry (i, j) has i <= j, and the
    pairwise read of (x, y) is the pairwise read of (y, x). *)
Theorem C8_canonical_upper_symmetric (g : ADGraph) :
  (forall i j x g', AddSoEdge i j x g = Some (tt, g') ->
     Eigen.entries (soEdges g')
     = <[(N.min i j, N.max i j) :=
           (Eigen.coeff (soEdges g) (N.min i j) (N.max i j) + x)%float]>
         (Eigen.entries (soEdges g)) /\
     (upper (soEdges g) -> upper (soEdges g'))) /\
  (forall a b x g', GetAdjoint2 a b g = Some (x, g') ->
     upper (soEdges g) -> upper (soEdges g')) /\
  (forall g', PropagateAdjoint g = Some (tt, g') -> upper (soEdges g')) /\
  (forall a b, GetAdjoint2 a b g = GetAdjoint2 b a g).
Proof.
  split; [|split; [|split]].
  - intros i j x g' H. split.
    + by apply AddSoEdge_Some in H as [_ ->].
    + by apply AddSoEdge_frame in H as [].
  - intros a b x g' H Hu.
    apply GetAdjoint2_Some in H as (_ & _ & _ & [E|[_ E]]);
      intros i j y; rewrite E; [apply Hu|].
    rewrite lookup_insert. case_decide; [|apply Hu].
    intros _. simplify_eq. lia.
  - intros g' E. by apply PropagateAdjoint_acc in E as [_ Hu].
  - intros a b. unfold GetAdjoint2.
    by rewrite (N.min_comm (varId a)), (N.max_comm (varId a)).
Qed.

(** A write at (1, 0) on the chain lands at (0, 1), and the entries stay
    in the upper triangle. *)
Lemma C8_witness :
  upper (Eigen.mkSparse 2 2 (<[(0, 1) := (0 + 7)%float]> {[ (1, 1) := 1%float ]})).
Proof.
  destruct (C8_canonical_upper_symmetric tape_chain_diag) as [Hadd _].
  destruct (Hadd 1 0 7%float
              (mkADGraph chain_vertices
                 (Eigen.mkSparse 2 2
                    (<[(0, 1) := (0 + 7)%float]> {[ (1, 1) := 1%float ]}))))
    as [_ Hu]; [reflexivity|]. apply Hu.
  intros i j y. cbn. intros [[= <- <-] _]%lookup_singleton_Some. lia.
Defined.

(** C10. The pairwise read goes through [coeffRef]: where no entry is
    stored at the canonical slot it returns zero and leaves an entry
    holding zero there, so the stored entries change; whether an entry
    was stored or not, the vertices and the value of every coefficient
    are as before. *)
Theorem C10_pairwise_read_inserts (a b : AReal) (g : ADGraph) :
  (Eigen.in_range (soEdges g) (N.min (varId a) (varId b))
                  (N.max (varId a) (varId b)) = true ->
   Eigen.entries (soEdges g)
     !! (N.min (varId a) (varId b), N.max (varId a) (varId b)) = None ->
   exists g', GetAdjoint2 a b g = Some (0%float, g') /\
     Eigen.entries (soEdges g')
     = <[(N.min (varId a) (varId b), N.max (varId a) (varId b)) := 0%float]>
         (Eigen.entries (soEdges g)) /\
     Eigen.entries (soEdges g') <> Eigen.entries (soEdges g)) /\
  (forall x g', GetAdjoint2 a b g = Some (x, g') ->
     vertices g' = vertices g /\
     forall i j, Eigen.coeff (soEdges g') i j = Eigen.coeff (soEdges g) i j).
Proof.
  split.
  - intros Hr Hn. unfold GetAdjoint2, Eigen.coeffRef. rewrite Hr, Hn.
    eexists. split; [reflexivity|]. cbn. split; [done|].
    intros E. rewrite <- E, lookup_insert_eq in Hn. discriminate.
  - intros x g' (_ & _ & Hv & [E|[Hn E]])%GetAdjoint2_Some;
      (split; [done|]); intros i j; unfold Eigen.coeff; rewrite E; [done|].
    rewrite lookup_insert. case_decide; [|done]. simplify_eq.
    by rewrite Hn.
Qed.

Lemma C10_witness :
  exists g', GetAdjoint2 (mkAReal 25 1) (mkAReal 5 0) tape_square_empty
             = Some (0%float, g') /\
    Eigen.entries (soEdges g') = <[(0, 1) := 0%float]> ∅ /\
    Eigen.entries (soEdges g') <> ∅.
Proof.
  apply (proj1 (C10_pairwise_read_inserts (mkAReal 25 1) (mkAReal 5 0)
                  tape_square_empty)); reflexivity.
Defined.

(** *** Division *)

Lemma to_VertexId_le (k : N) : to_VertexId k <= k.
Proof. apply N.Div0.mod_le. Qed.

Lemma unary_appends (g : ADGraph) (p : AReal) (v w1 s : Real) :
  exists a g',
    (let* ret' := NewAReal v in AddEdge1 ret' p w1 s ;; ret ret') g = Some (a, g')
    /\ val a = v /\ size g' = size g + 1.
Proof.
  pose proof (to_VertexId_le (size g)) as Hle.
  set (g0 := appended g (ADVertex_new (to_VertexId (size g)))).
  destruct (proj2 (lookup_size g0 (to_VertexId (size g)))) as [v0 Hv0].
  { unfold g0. rewrite size_appended. lia. }
  eexists _, _. split.
  - unfold bind at 1.
    change (NewAReal v g) with (Some (mkAReal v (to_VertexId (size g)), g0)).
    unfold bind, AddEdge1, update_vertex. cbn [varId]. rewrite Hv0. reflexivity.
  - split; [done|]. unfold size. cbn. rewrite length_insert, length_app. cbn. lia.
Qed.

Lemma binary_appends (g : ADGraph) (p1 p2 : AReal) (v w1 w2 s : Real) :
  exists a g',
    (let* ret' := NewAReal v in AddEdge2 ret' p1 p2 w1 w2 s ;; ret ret') g
    = Some (a, g')
    /\ val a = v /\ size g' = size g + 1.
Proof.
  pose proof (to_VertexId_le (size g)) as Hle.
  set (g0 := appended g (ADVertex_new (to_VertexId (size g)))).
  destruct (proj2 (lookup_size g0 (to_VertexId (size g)))) as [v0 Hv0].
  { unfold g0. rewrite size_appended. lia. }
  eexists _, _. split.
  - unfold bind at 1.
    change (NewAReal v g) with (Some (mkAReal v (to_VertexId (size g)), g0)).
    unfold bind, AddEdge2, update_vertex. cbn [varId]. rewrite Hv0. reflexivity.
  - split; [done|]. unfold size. cbn. rewrite length_insert, length_app. cbn. lia.
Qed.

(** C4, as the code has it.  A division by an active scalar is recorded
    as the product with [Inv] of the divisor and appends two tape
    entries, one for [Inv] and one for the product.  A division by a
    plain number is recorded as the product with the plain number
    [1 / y] and appends one tape entry.  In each case the tape is the
    one the explicit composition leaves. *)
Theorem C4_division_entries (l r : AReal) (x : Real) (g : ADGraph) :
  (operator_div l r g = (let* i := Inv r in operator_mul l i) g /\
   exists a g', operator_div l r g = Some (a, g') /\
     val a = (val l * (1 / val r))%float /\ size g' = size g + 2) /\
  (operator_div_l x r g = (let* i := Inv r in operator_mul_l x i) g /\
   exists a g', operator_div_l x r g = Some (a, g') /\
     val a = (1 / val r * x)%float /\ size g' = size g + 2) /\
  (operator_div_r l x g = operator_mul_r l (Inv_Real x) g /\
   exists a g', operator_div_r l x g = Some (a, g') /\
     val a = (val l * (1 / x))%float /\ size g' = size g + 1).
Proof.
  split; [|split]; (split; [reflexivity|]).
  - destruct (unary_appends g r (1 / val r)
                (- (1 / val r * (1 / val r)))
                (2 * (1 / val r * (1 / val r) * (1 / val r))))
      as (i & g1 & Ei & Hi & S1).
    destruct (binary_appends g1 l i (val l * val i) (val i) (val l) 1)
      as (a & g2 & Ea & Ha & S2).
    exists a, g2. split; [|split; [by rewrite Ha, Hi|lia]].
    unfold operator_div, bind at 1, Inv. cbv zeta. by rewrite Ei.
  - destruct (unary_appends g r (1 / val r)
                (- (1 / val r * (1 / val r)))
                (2 * (1 / val r * (1 / val r) * (1 / val r))))
      as (i & g1 & Ei & Hi & S1).
    destruct (unary_appends g1 i (val i * x) x 0) as (a & g2 & Ea & Ha & S2).
    exists a, g2. split; [|split; [by rewrite Ha, Hi|lia]].
    unfold operator_div_l, bind at 1, Inv. cbv zeta. by rewrite Ei.
  - destruct (unary_appends g l (val l * (1 / x)) (1 / x) 0)
      as (a & g1 & Ea & Ha & S1).
    by exists a, g1.
Qed.

(** C4, as stated, fails on a division by a plain number: [x / 2] with
    [x = 6] appends one vertex, for the product by [0.5]; no vertex
    stands for [Inv(2)]. *)
Lemma C4_counterexample :
  operator_div_r (mkAReal 6 0) 2 tape_one_leaf
  = Some (mkAReal 3 1,
          mkADGraph [ADVertex_new 0;
                     mkADVertex (ADEdge.mk 0 0.5) (ADEdge.self 1) 0 0]
                    Eigen.empty)
  /\ ~ (exists a g', operator_div_r (mkAReal 6 0) 2 tape_one_leaf = Some (a, g')
                     /\ size g' = size tape_one_leaf + 2).
Proof.
  split; [vm_compute; reflexivity|].
  intros (a & g' & E & Hs). vm_compute in E. injection E as <- <-.
  vm_compute in Hs. discriminate.
Qed.

(** *** The edge discipline *)

(** C6. After any sequence of leaf creations and recorded operations on
    a fresh tape, as long as the identifiers fit [VertexId], every
    vertex [v] of the tape has: [e1.to < v] unless [e1.to = v],
    [e2.to < v] unless [e2.to = v], and [e1.to <> v] whenever
    [e2.to <> v]. *)
Theorem C6_recorded_edges_point_down
    (lm : Libm) (prog : list Cmd) (pool : list AReal) (g : ADGraph) :
  record lm prog [] ADGraph_new = Some (pool, g) ->
  ids_fit g ->
  forall (i : nat) (x : ADVertex),
    vertices g !! i = Some x ->
    (ADEdge.to (e1 x) <> N.of_nat i -> ADEdge.to (e1 x) < N.of_nat i) /\
    (ADEdge.to (e2 x) <> N.of_nat i -> ADEdge.to (e2 x) < N.of_nat i) /\
    (ADEdge.to (e2 x) <> N.of_nat i -> ADEdge.to (e1 x) <> N.of_nat i).
Proof.
  intros E Hfit.
  destruct (record_ok lm prog [] ADGraph_new pool g E Hfit) as [Hok _].
  - intros i x. cbn. by rewrite lookup_nil.
  - constructor.
  - exact Hok.
Qed.

Lemma C6_witness :
  exists pool g,
    session_demo_run = Some (pool, g) /\ length (vertices g) = 11%nat /\
    forall (i : nat) (x : ADVertex),
      vertices g !! i = Some x ->
      (ADEdge.to (e1 x) <> N.of_nat i -> ADEdge.to (e1 x) < N.of_nat i) /\
      (ADEdge.to (e2 x) <> N.of_nat i -> ADEdge.to (e2 x) < N.of_nat i) /\
      (ADEdge.to (e2 x) <> N.of_nat i -> ADEdge.to (e1 x) <> N.of_nat i).
Proof.
  eexists _, _. split; [reflexivity|]. split; [reflexivity|].
  eapply (C6_recorded_edges_point_down libm_nan session_demo).
  - vm_compute. reflexivity.
  - unfold ids_fit. vm_compute. discriminate.
Defined.

(** *** Entries the iterator does not meet *)

(** What the pushing loop at [vid] iterates over: the entries stored in
    column [vid], that is the entries (i, vid), which have i <= vid in an
    upper-triangular accumulator.  An entry (vid, j) with vid < j is in
    column [j] and is not met at [vid]. *)
Lemma pushing_iterates_column (g : ADGraph) (vid : VertexId) :
  in_dims (soEdges g) -> upper (soEdges g) ->
  forall i s,
    (i, s) ∈ Eigen.InnerIterator (soEdges g) vid
    <-> Eigen.entries (soEdges g) !! (i, vid) = Some s /\ i <= vid.
Proof.
  intros Hd Hu i s. rewrite elem_of_InnerIterator. split.
  - intros [E _]. split; [done|]. by apply Hu in E.
  - intros [E _]. split; [done|]. by apply Hd in E as [].
Qed.

(** C2, on the tape of [late_leaf].  When the sweep reaches [z]
    (vertex 1, not a leaf) the accumulator stores the entry (1, 2) with
    weight 1, created at [f]; the iterator opened at vertex 1 yields
    nothing, the entry is never pushed through the edges of [z], and the
    pairwise read of (x, y) after propagation is 0. *)
Theorem C2_late_leaf_entry_not_met :
  exists g vertex gf,
    exec (late_leaf ;; resize_soEdges ;; visit 3 ;; visit 2) ADGraph_new = Some g /\
    vertices g !! 1%nat = Some vertex /\
    is_leaf 1 vertex = false /\
    Eigen.entries (soEdges g) !! (1, 2) = Some 1%float /\
    Eigen.InnerIterator (soEdges g) 1 = [] /\
    (let* xy := late_leaf in
     PropagateAdjoint ;; GetAdjoint2 (fst xy) (snd xy)) ADGraph_new
    = Some (0%float, gf) /\
    Eigen.entries (soEdges gf) !! (1, 2) = Some 1%float.
Proof.
  eexists _, _, _. vm_compute. repeat split; reflexivity.
Qed.

(** *** Seeding the accumulator *)

(** C1, as stated, fails.  On the chain the caller seeds the entry
    (1, 1) with weight 1 through [AddSoEdge]; [PropagateAdjoint] resizes
    the accumulator first, so at entry to the sweep nothing is stored,
    and after propagation nothing is stored either: the seed was not
    pushed to (0, 0).  On a tape whose accumulator was never sized the
    seeding write itself is outside the matrix. *)
Lemma C1_counterexample :
  exists gs g0 gf,
    AddSoEdge 1 1 1 tape_chain = Some (tt, gs) /\
    Eigen.entries (soEdges gs) !! (1, 1) = Some 1%float /\
    resize_soEdges gs = Some (tt, g0) /\
    Eigen.entries (soEdges g0) !! (1, 1) = None /\
    PropagateAdjoint gs = Some (tt, gf) /\
    Eigen.entries (soEdges gf) = ∅ /\
    AddSoEdge 1 1 1 (mkADGraph chain_vertices Eigen.empty) = None.
Proof.
  eexists _, _, _. vm_compute. repeat split; reflexivity.
Qed.


(** * Further properties *)

(** ** What the sweep keeps of the tape *)

Section SweepFrame.

Implicit Types (g : ADGraph) (vid : VertexId).

Lemma sweep_frame_refl g : sweep_frame g g.
Proof. constructor; try done. intros i x x' H1 H2. by simplify_eq. Qed.

Lemma sweep_frame_trans g1 g2 g3 :
  sweep_frame g1 g2 -> sweep_frame g2 g3 -> sweep_frame g1 g3.
Proof.
  intros [L1 V1 R1 C1] [L2 V2 R2 C2]. constructor; try congruence.
  intros i x x' H1 H3.
  destruct (vertices g2 !! i) as [x2|] eqn:H2.
  - destruct (V1 i x x2 H1 H2) as (Ea & Eb & Ec).
    destruct (V2 i x2 x' H2 H3) as (Fa & Fb & Fc).
    repeat split; congruence.
  - apply lookup_lt_Some in H1. apply lookup_ge_None in H2. lia.
Qed.

Lemma so_frame_sweep_frame g g' : so_frame g g' -> sweep_frame g g'.
Proof.
  intros [Hv Hr Hc _ _]. constructor; try done; rewrite Hv; [done|].
  intros i x x' H1 H2. by simplify_eq.
Qed.

(** An update of one record that leaves its edges and curvature. *)
Lemma update_vertex_sweep_frame vid (f : ADVertex -> ADVertex) :
  (forall v, e1 (f v) = e1 v /\ e2 (f v) = e2 v /\ soW (f v) = soW v) ->
  relates sweep_frame (update_vertex vid f).
Proof.
  intros Hf g g' (v & Hv & ->)%update_vertex_Some.
  constructor; cbn; try done; [by rewrite length_insert|].
  intros i x x' H1 H2.
  destruct (decide (i = N.to_nat vid)) as [->|Hne].
  - rewrite list_lookup_insert_eq in H2 by (by eapply lookup_lt_Some).
    simplify_eq. apply Hf.
  - rewrite list_lookup_insert_ne in H2 by done. by simplify_eq.
Qed.

Lemma adjoint_sweep_frame vid vertex a :
  relates sweep_frame (adjoint vid vertex a).
Proof.
  unfold adjoint.
  repeat (apply relates_seq;
          [apply sweep_frame_trans|by apply update_vertex_sweep_frame|]).
  destruct (negb _); [by apply update_vertex_sweep_frame|].
  apply relates_ret, sweep_frame_refl.
Qed.

Lemma visit_sweep_frame vid : relates sweep_frame (visit vid).
Proof.
  intros g g' (vertex & ? & [Hv ->]%vertex_at_Some & E)%bind_Some.
  destruct (_ =? vid).
  { injection E as <-. apply sweep_frame_refl. }
  apply bind_Some in E as ([] & g1 & Ep%pushing_frame%so_frame_sweep_frame & E).
  apply bind_Some in E as (now & ? & [_ ->]%vertex_at_Some & E).
  eapply sweep_frame_trans; [exact Ep|]. cbv zeta in E.
  destruct (Real_neq0 _); [|injection E as <-; apply sweep_frame_refl].
  apply bind_Some in E as ([] & g2 & Ec%creating_frame%so_frame_sweep_frame & E).
  eapply sweep_frame_trans; [exact Ec|]. by eapply adjoint_sweep_frame.
Qed.

Lemma sweep_sweep_frame (k : nat) : relates sweep_frame (sweep k).
Proof.
  induction k as [|k IH]; cbn [sweep].
  - apply relates_ret, sweep_frame_refl.
  - apply relates_seq; [apply sweep_frame_trans|apply visit_sweep_frame|exact IH].
Qed.

Lemma sweep_frame_tape_ok g g' : sweep_frame g g' -> tape_ok g -> tape_ok g'.
Proof.
  intros [L V _ _] Hok i x' Hi.
  destruct (vertices g !! i) as [x|] eqn:Hx.
  - destruct (V i x x' Hx Hi) as (E1 & E2 & _).
    specialize (Hok i x Hx). unfold vertex_ok in *. by rewrite E1, E2.
  - apply lookup_lt_Some in Hi. apply lookup_ge_None in Hx. lia.
Qed.

End SweepFrame.

Lemma PropagateAdjoint_sweep_frame (g g' : ADGraph) :
  PropagateAdjoint g = Some (tt, g') ->
  sweep_frame (mkADGraph (vertices g)
                 (Eigen.resize (size g) (size g) (soEdges g))) g'.
Proof.
  intros ([] & g0 & [= <-] & E)%bind_Some. by apply sweep_sweep_frame in E.
Qed.

(** X6. [PropagateAdjoint] keeps the shape of the tape: the number of
    vertices, and the two edges and the local curvature of every vertex,
    are as before (only adjoints change); and it leaves the accumulator
    with as many rows and columns as the tape has vertices, every stored
    entry inside these dimensions. *)
Theorem PropagateAdjoint_keeps_structure (g g' : ADGraph) :
  PropagateAdjoint g = Some (tt, g') ->
  length (vertices g') = length (vertices g) /\
  (forall (i : nat) (x : ADVertex),
     vertices g !! i = Some x ->
     exists x', vertices g' !! i = Some x' /\
                e1 x' = e1 x /\ e2 x' = e2 x /\ soW x' = soW x) /\
  Eigen.rows (soEdges g') = size g /\
  Eigen.cols (soEdges g') = size g /\
  in_dims (soEdges g').
Proof.
  intros E. pose proof (PropagateAdjoint_acc g g' E) as [Hd _].
  apply PropagateAdjoint_sweep_frame in E as [L V R C]. cbn in *.
  split; [exact L|]. split; [|exact (conj R (conj C Hd))].
  intros i x Hx.
  destruct (vertices g' !! i) as [x'|] eqn:Hx'.
  - exists x'. split; [done|]. by apply (V i).
  - apply lookup_lt_Some in Hx. apply lookup_ge_None in Hx'. lia.
Qed.

Lemma PropagateAdjoint_keeps_structure_witness :
  exists g', PropagateAdjoint tape_square = Some (tt, g') /\
             length (vertices g') = 2%nat /\
             Eigen.rows (soEdges g') = 2 /\ Eigen.cols (soEdges g') = 2.
Proof.
  eexists. split; [vm_compute; reflexivity|].
  destruct (PropagateAdjoint_keeps_structure tape_square _ eq_refl)
    as (L & _ & R & C & _).
  split; [exact L|]. split; [exact R|exact C].
Defined.

(** X7. After [PropagateAdjoint] the pairwise read of any two scalars of
    the tape is inside the accumulator: it returns the coefficient at
    (min, max) and leaves the vertices alone. *)
Theorem GetAdjoint2_after_propagation (g g' : ADGraph) (a b : AReal) :
  PropagateAdjoint g = Some (tt, g') ->
  varId a < size g -> varId b < size g ->
  exists g'',
    GetAdjoint2 a b g'
    = Some (Eigen.coeff (soEdges g') (N.min (varId a) (varId b))
                        (N.max (varId a) (varId b)), g'') /\
    vertices g'' = vertices g'.
Proof.
  intros E Ha Hb. apply PropagateAdjoint_sweep_frame in E as [_ _ R C].
  cbn in R, C.
  assert (Hr : Eigen.in_range (soEdges g') (N.min (varId a) (varId b))
                 (N.max (varId a) (varId b)) = true).
  { apply in_range_spec. lia. }
  unfold GetAdjoint2, Eigen.coeffRef, Eigen.coeff. rewrite Hr.
  destruct (Eigen.entries (soEdges g') !! _); by eexists.
Qed.

Lemma GetAdjoint2_after_propagation_witness :
  exists g' g'',
    PropagateAdjoint tape_square = Some (tt, g') /\
    GetAdjoint2 (mkAReal 25 1) (mkAReal 5 0) g' = Some (0%float, g'') /\
    vertices g'' = vertices g'.
Proof.
  eexists.
  destruct (GetAdjoint2_after_propagation tape_square _
              (mkAReal 25 1) (mkAReal 5 0) eq_refl eq_refl eq_refl)
    as (g'' & E & Hv).
  exists g''. split; [vm_compute; reflexivity|]. split; [exact E|exact Hv].
Defined.

(** ** Adjoints after the sweep *)

Section Discharge.

Implicit Types (g : ADGraph) (vid : VertexId).

Lemma tape_ok_parents g vid vertex :
  tape_ok g -> vertices g !! N.to_nat vid = Some vertex ->
  is_leaf vid vertex = false ->
  ADEdge.to (e1 vertex) < vid /\
  (ADEdge.to (e2 vertex) = vid \/ ADEdge.to (e2 vertex) < vid).
Proof.
  intros Hok Hv Hl. specialize (Hok _ _ Hv). rewrite N2Nat.id in Hok.
  destruct Hok as (H1 & H2 & _). unfold is_leaf in Hl.
  apply N.eqb_neq in Hl. split; [auto|].
  destruct (N.eq_dec (ADEdge.to (e2 vertex)) vid); auto.
Qed.

(** The visit of [vid] writes no record above [vid], and leaves a zero
    adjoint at [vid] unless it is a leaf. *)
Lemma visit_discharges vid g g' :
  tape_ok g -> visit vid g = Some (tt, g') ->
  (forall i : nat, (N.to_nat vid < i)%nat ->
                   vertices g' !! i = vertices g !! i) /\
  (forall x', vertices g' !! N.to_nat vid = Some x' ->
              is_leaf vid x' = false -> Real_neq0 (w x') = false).
Proof.
  intros Hok (vertex & ? & [Hv ->]%vertex_at_Some & E)%bind_Some.
  destruct (ADEdge.to (e1 vertex) =? vid) eqn:Hl.
  { injection E as <-. split; [done|]. intros x' Hx' Hl'.
    simplify_eq. unfold is_leaf in Hl'. congruence. }
  destruct (tape_ok_parents g vid vertex Hok Hv Hl) as [H1 H2].
  apply bind_Some in E as ([] & g1 & [Ev _ _ _ _]%pushing_frame & E).
  apply bind_Some in E as (now & ? & [Hn ->]%vertex_at_Some & E).
  rewrite Ev, Hv in Hn. injection Hn as <-. cbv zeta in E.
  destruct (Real_neq0 (w vertex)) eqn:Hw.
  2:{ injection E as <-. rewrite Ev. split; [done|].
      intros x' Hx' _. by simplify_eq. }
  apply bind_Some in E as ([] & g2 & [Ec _ _ _ _]%creating_frame & E).
  rewrite Ev in Ec. unfold adjoint in E.
  apply bind_Some in E as ([] & g3 & (v3 & Hv3 & ->)%update_vertex_Some & E).
  apply bind_Some in E as ([] & g4 & (v4 & Hv4 & ->)%update_vertex_Some & E).
  cbn [vertices soEdges] in *.
  assert (Hlt : (N.to_nat vid < length (vertices g))%nat)
    by (by eapply lookup_lt_Some).
  destruct (negb (ADEdge.to (e2 vertex) =? vid)) eqn:H2b.
  - apply update_vertex_Some in E as (v5 & Hv5 & ->). cbn [vertices].
    apply negb_true_iff, N.eqb_neq in H2b.
    split.
    + intros i Hi. rewrite !list_lookup_insert_ne by lia. by rewrite Ec.
    + intros x' Hx' _.
      rewrite !list_lookup_insert_ne in Hx' by lia.
      rewrite list_lookup_insert_eq in Hx' by (rewrite Ec; lia).
      by simplify_eq.
  - injection E as <-. cbn [vertices]. split.
    + intros i Hi. rewrite !list_lookup_insert_ne by lia. by rewrite Ec.
    + intros x' Hx' _.
      rewrite list_lookup_insert_ne in Hx' by lia.
      rewrite list_lookup_insert_eq in Hx' by (rewrite Ec; lia).
      by simplify_eq.
Qed.

Lemma sweep_discharges (k : nat) : forall g g',
  tape_ok g -> sweep k g = Some (tt, g') ->
  (forall i : nat, (k < i)%nat -> vertices g' !! i = vertices g !! i) /\
  (forall (i : nat) x', (i <= k)%nat -> vertices g' !! i = Some x' ->
     is_leaf (N.of_nat i) x' = false -> Real_neq0 (w x') = false).
Proof.
  induction k as [|k IH]; intros g g' Hok; cbn [sweep].
  - intros [= <-]. split; [done|]. intros i x' Hi Hx' Hl.
    assert (i = 0%nat) as -> by lia.
    destruct (Hok _ _ Hx') as (H1 & _ & _). unfold is_leaf in Hl.
    apply N.eqb_neq in Hl. specialize (H1 Hl). lia.
  - intros ([] & g1 & Ev & Es)%bind_Some.
    pose proof (visit_sweep_frame _ _ _ Ev) as Hf.
    pose proof (sweep_frame_tape_ok _ _ Hf Hok) as Hok1.
    destruct (visit_discharges _ _ _ Hok Ev) as [Va Vd].
    destruct (IH _ _ Hok1 Es) as [Sa Sd].
    rewrite Nat2N.id in Va, Vd. split.
    + intros i Hi. rewrite Sa by lia. apply Va. lia.
    + intros i x' Hi Hx' Hl.
      destruct (decide (i = S k)) as [->|Hne].
      * rewrite Sa in Hx' by lia. by apply Vd.
      * apply (Sd i); [lia|done|done].
Qed.

Lemma PropagateAdjoint_discharged g g' :
  tape_ok g -> ids_fit g -> PropagateAdjoint g = Some (tt, g') ->
  discharged g'.
Proof.
  intros Hok Hfit E.
  destruct (vertices g) as [|v0 vs] eqn:Hvs.
  { destruct g as [vs m]. cbn in Hvs. subst.
    by rewrite PropagateAdjoint_empty in E. }
  pose proof (PropagateAdjoint_sweep_frame g g' E) as [L _ _ _].
  apply bind_Some in E as ([] & g0 & [= <-] & E). cbn in L.
  assert (Hn : 1 <= size g) by (unfold size; rewrite Hvs; cbn; lia).
  change (size (mkADGraph _ _)) with (size g) in E.
  rewrite first_vid_pos in E by (unfold ids_fit in Hfit; lia).
  apply sweep_discharges in E as [_ Sd]; [|exact Hok].
  intros i x' Hx' Hl. apply (Sd i); try done.
  apply lookup_lt_Some in Hx'. rewrite L in Hx'. unfold size in *. lia.
Qed.

End Discharge.

(** X8. After [PropagateAdjoint] on a tape that keeps the edge
    discipline (every edge points below its vertex) and whose
    identifiers fit, every vertex that is not a leaf has a zero adjoint:
    the gradient is on the leaves only. *)
Theorem PropagateAdjoint_discharges_intermediates (g g' : ADGraph) :
  tape_ok g -> ids_fit g -> PropagateAdjoint g = Some (tt, g') ->
  forall (i : nat) (x : ADVertex),
    vertices g' !! i = Some x ->
    ADEdge.to (e1 x) <> N.of_nat i ->
    PrimFloat.eqb (w x) 0 = true.
Proof.
  intros Hok Hfit E i x Hx Hl.
  pose proof (PropagateAdjoint_discharged g g' Hok Hfit E i x Hx) as Hd.
  unfold is_leaf, Real_neq0 in Hd. apply negb_false_iff, Hd.
  by apply N.eqb_neq.
Qed.

Lemma PropagateAdjoint_discharges_intermediates_witness :
  exists g' x,
    PropagateAdjoint tape_square = Some (tt, g') /\
    vertices g' !! 1%nat = Some x /\
    PrimFloat.eqb (w x) 0 = true.
Proof.
  eexists _, _. split; [vm_compute; reflexivity|].
  split; [vm_compute; reflexivity|].
  eapply (PropagateAdjoint_discharges_intermediates tape_square)
    with (i := 1%nat).
  - intros [|[|i]] x; cbn; intros [= <-]; unfold vertex_ok; cbn; lia.
  - unfold ids_fit. vm_compute. discriminate.
  - vm_compute. reflexivity.
  - reflexivity.
  - cbn. lia.
Defined.

(** ** A sweep with nothing to propagate *)

Section Quiet.

Implicit Types (g : ADGraph) (vid : VertexId).

Lemma InnerIterator_empty (m : Eigen.SparseMatrix) (c : N) :
  Eigen.entries m = ∅ -> Eigen.InnerIterator m c = [].
Proof.
  intros E. unfold Eigen.InnerIterator. rewrite E.
  induction (Eigen.inner_indices m) as [|r l IH]; [done|].
  cbn [omap list_omap]. by rewrite lookup_empty.
Qed.

Lemma pushing_empty vid ea eb g :
  Eigen.entries (soEdges g) = ∅ -> pushing vid ea eb g = Some (tt, g).
Proof. intros E. unfold pushing. by rewrite InnerIterator_empty. Qed.

(** With nothing stored, the visit of a leaf or of a vertex with a zero
    adjoint changes nothing. *)
Lemma visit_quiet vid g x :
  vertices g !! N.to_nat vid = Some x ->
  Eigen.entries (soEdges g) = ∅ ->
  (is_leaf vid x = false -> Real_neq0 (w x) = false) ->
  visit vid g = Some (tt, g).
Proof.
  intros Hv He Hw. destruct (is_leaf vid x) eqn:Hl.
  - unfold visit, bind, vertex_at. rewrite Hv. unfold is_leaf in Hl.
    by rewrite Hl.
  - rewrite (visit_zero_adjoint vid g x) by auto. by apply pushing_empty.
Qed.

Lemma sweep_quiet (k : nat) g :
  (k < length (vertices g))%nat ->
  Eigen.entries (soEdges g) = ∅ -> discharged g ->
  sweep k g = Some (tt, g).
Proof.
  intros Hk He Hd. induction k as [|k IH]; cbn [sweep]; [done|].
  destruct (lookup_lt_is_Some_2 (vertices g) (S k) Hk) as [x Hx].
  unfold bind. rewrite (visit_quiet (N.of_nat (S k)) g x).
  - apply IH. lia.
  - by rewrite Nat2N.id.
  - done.
  - apply Hd. exact Hx.
Qed.

Lemma PropagateAdjoint_quiet g :
  vertices g <> [] -> ids_fit g -> discharged g ->
  PropagateAdjoint g
  = Some (tt, mkADGraph (vertices g) (Eigen.mkSparse (size g) (size g) ∅)).
Proof.
  intros Hne Hfit Hd.
  assert (Hn : 1 <= size g).
  { unfold size. destruct (vertices g); [done|cbn; lia]. }
  unfold PropagateAdjoint, bind, resize_soEdges.
  change (size (mkADGraph _ _)) with (size g).
  rewrite first_vid_pos by (unfold ids_fit in Hfit; lia).
  apply sweep_quiet; cbn; [unfold size in *; lia|done|exact Hd].
Qed.

End Quiet.

(** X9. Without a seed nothing is propagated: on a non-empty tape whose
    identifiers fit and on which every vertex that is not a leaf has a
    zero adjoint, [PropagateAdjoint] returns, changes no vertex record
    (adjoints set on leaves stay where they are) and leaves an
    accumulator with nothing stored. *)
Theorem PropagateAdjoint_without_seed (g : ADGraph) :
  vertices g <> [] -> ids_fit g ->
  (forall (i : nat) (x : ADVertex),
     vertices g !! i = Some x ->
     ADEdge.to (e1 x) <> N.of_nat i -> PrimFloat.eqb (w x) 0 = true) ->
  exists g',
    PropagateAdjoint g = Some (tt, g') /\
    vertices g' = vertices g /\
    Eigen.entries (soEdges g') = ∅.
Proof.
  intros Hne Hfit Hz. eexists. split.
  - apply PropagateAdjoint_quiet; try done.
    intros i x Hx Hl. unfold is_leaf in Hl. apply N.eqb_neq in Hl.
    unfold Real_neq0. by rewrite (Hz i x Hx Hl).
  - split; reflexivity.
Qed.

Lemma PropagateAdjoint_without_seed_witness :
  exists g',
    PropagateAdjoint (mkADGraph chain_vertices Eigen.empty) = Some (tt, g') /\
    vertices g' = chain_vertices /\
    Eigen.entries (soEdges g') = ∅.
Proof.
  apply (PropagateAdjoint_without_seed (mkADGraph chain_vertices Eigen.empty)).
  - discriminate.
  - unfold ids_fit. vm_compute. discriminate.
  - intros [|[|i]] x; cbn; intros [= <-]; cbn; [lia|reflexivity].
Defined.

(** X10. Propagating a second time without seeding again erases the
    second-order result and keeps the gradient: after a first
    [PropagateAdjoint] on a tape that keeps the edge discipline, a
    second one returns, changes no vertex record and leaves an
    accumulator with nothing stored. *)
Theorem PropagateAdjoint_twice (g g1 : ADGraph) :
  tape_ok g -> ids_fit g ->
  PropagateAdjoint g = Some (tt, g1) ->
  exists g2,
    PropagateAdjoint g1 = Some (tt, g2) /\
    vertices g2 = vertices g1 /\
    Eigen.entries (soEdges g2) = ∅.
Proof.
  intros Hok Hfit E.
  pose proof (PropagateAdjoint_discharged g g1 Hok Hfit E) as Hd.
  pose proof (PropagateAdjoint_sweep_frame g g1 E) as [L _ _ _]. cbn in L.
  eexists. split; [apply PropagateAdjoint_quiet; [| |exact Hd]|split; reflexivity].
  - intros Hnil. rewrite Hnil in L. cbn in L. symmetry in L.
    apply length_zero_iff_nil in L. destruct g as [vs m]. cbn in L. subst.
    by rewrite PropagateAdjoint_empty in E.
  - unfold ids_fit, size in *. by rewrite L.
Qed.

Lemma PropagateAdjoint_twice_witness :
  exists g1 g2,
    PropagateAdjoint tape_square = Some (tt, g1) /\
    PropagateAdjoint g1 = Some (tt, g2) /\
    vertices g2 = vertices g1 /\
    Eigen.entries (soEdges g2) = ∅.
Proof.
  eexists.
  edestruct (PropagateAdjoint_twice tape_square) as (g2 & E2 & Hv & He).
  - intros [|[|i]] x; cbn; intros [= <-]; unfold vertex_ok; cbn; lia.
  - unfold ids_fit. vm_compute. discriminate.
  - vm_compute. reflexivity.
  - exists g2. split; [vm_compute; reflexivity|].
    split; [exact E2|]. split; [exact Hv|exact He].
Defined.

(** ** Recording and the accumulator *)

Section RecordingFrame.

Implicit Types (g : ADGraph) (l r p a : AReal) (v x s : Real).

Lemma unary_soEdges p v w1 s :
  keeps_soEdges (let* ret' := NewAReal v in AddEdge1 ret' p w1 s ;; ret ret').
Proof.
  intros g a g' (a0 & g0 & ->%NewAReal_Some & E)%bind_Some.
  apply bind_Some in E as ([] & g1 & E & [= _ <-]).
  by apply update_vertex_soEdges in E.
Qed.

Lemma binary_soEdges p1 p2 v w1 w2 s :
  keeps_soEdges (let* ret' := NewAReal v in AddEdge2 ret' p1 p2 w1 w2 s ;; ret ret').
Proof.
  intros g a g' (a0 & g0 & ->%NewAReal_Some & E)%bind_Some.
  apply bind_Some in E as ([] & g1 & E & [= _ <-]).
  by apply update_vertex_soEdges in E.
Qed.

Lemma after_Inv_soEdges r (k : AReal -> G AReal) :
  (forall i, keeps_soEdges (k i)) -> keeps_soEdges (let* i := Inv r in k i).
Proof.
  intros Hk g a g' (i & g1 & Ei & Ek)%bind_Some.
  apply unary_soEdges in Ei. apply Hk in Ek. congruence.
Qed.

Lemma run_cmd_soEdges lm pool c : keeps_soEdges (run_cmd lm pool c).
Proof.
  intros g a g'.
  destruct c as [v|op l r|op l r|op l r|f x|x e]; cbn [run_cmd]; intros E.
  - by apply NewAReal_Some in E as ->.
  - apply bind_Some in E as (a1 & ? & [H1 ->]%held_Some & E).
    apply bind_Some in E as (a2 & ? & [H2 ->]%held_Some & E).
    destruct op; cbn in E; try (by apply binary_soEdges in E).
    revert E. apply after_Inv_soEdges. intros i. apply binary_soEdges.
  - apply bind_Some in E as (a1 & ? & [H1 ->]%held_Some & E).
    destruct op; cbn in E; by apply unary_soEdges in E.
  - apply bind_Some in E as (a1 & ? & [H1 ->]%held_Some & E).
    destruct op; cbn in E; try (by apply unary_soEdges in E).
    revert E. apply after_Inv_soEdges. intros i. apply unary_soEdges.
  - apply bind_Some in E as (a1 & ? & [H1 ->]%held_Some & E).
    destruct f; cbn in E; by apply unary_soEdges in E.
  - apply bind_Some in E as (a1 & ? & [H1 ->]%held_Some & E).
    by apply unary_soEdges in E.
Qed.

Lemma record_soEdges lm prog : forall pool g pool' g',
  record lm prog pool g = Some (pool', g') -> soEdges g' = soEdges g.
Proof.
  induction prog as [|c prog IH]; intros pool g pool' g'; cbn [record].
  - by intros [= _ <-].
  - intros (a & g1 & E1%run_cmd_soEdges & E2%IH)%bind_Some. congruence.
Qed.

Lemma record_prefix lm prog : forall pool g pool' g',
  record lm prog pool g = Some (pool', g') ->
  ids_fit g' -> pool_ok g pool ->
  (forall i : nat, (i < length (vertices g))%nat ->
                   vertices g' !! i = vertices g !! i) /\
  pool_ok g' pool' /\
  length pool' = (length pool + length prog)%nat.
Proof.
  induction prog as [|c prog IH]; intros pool g pool' g'; cbn [record].
  - intros [= <- <-] _ Hp. cbn. split; [done|]. split; [done|lia].
  - intros (a & g1 & E1 & E2)%bind_Some Hfit Hp.
    pose proof (record_size _ _ _ _ _ _ E2) as Hsz.
    apply run_cmd_recorder in E1 as [Hg Hs].
    assert (Hfit1 : ids_fit g1) by (unfold ids_fit in *; lia).
    specialize (Hs Hfit1 Hp).
    destruct (IH _ _ _ _ E2 Hfit (step_pool_ok _ _ _ _ Hs Hp)) as (Pre & Hp' & Len).
    rewrite length_app in Len. cbn in *.
    split; [|split; [done|lia]].
    intros i Hi. rewrite Pre by (unfold size in Hg; lia).
    by apply (so_prefix _ _ _ Hs).
Qed.

End RecordingFrame.

(** X2. Recording is append-only.  When a program of leaf creations and
    operators runs on a tape (identifiers fitting, the scalars it starts
    with designating vertices), every vertex already on the tape is left
    as it was, adjoint included; the accumulator is not touched; and
    each scalar the program holds afterwards, one more per command,
    designates a vertex of the tape. *)
Theorem recording_is_append_only
    (lm : Libm) (prog : list Cmd) (pool pool' : list AReal) (g g' : ADGraph) :
  record lm prog pool g = Some (pool', g') ->
  ids_fit g' -> pool_ok g pool ->
  (forall i : nat, (i < length (vertices g))%nat ->
                   vertices g' !! i = vertices g !! i) /\
  soEdges g' = soEdges g /\
  Forall (fun a => varId a < size g') pool' /\
  length pool' = (length pool + length prog)%nat.
Proof.
  intros E Hfit Hp.
  destruct (record_prefix lm prog pool g pool' g' E Hfit Hp) as (Pre & Hp' & Len).
  split; [exact Pre|]. split; [by eapply record_soEdges|]. by split.
Qed.

Lemma recording_is_append_only_witness :
  exists pool' g',
    record libm_nan [Bin OpMul 0 0; Un OpSqrt 1] [mkAReal 5 0] tape_one_leaf
    = Some (pool', g') /\
    vertices g' !! 0%nat = Some (ADVertex_new 0) /\
    soEdges g' = Eigen.empty /\
    length pool' = 3%nat.
Proof.
  eexists _, _. split; [vm_compute; reflexivity|].
  edestruct (recording_is_append_only libm_nan [Bin OpMul 0 0; Un OpSqrt 1]
               [mkAReal 5 0]) with (g := tape_one_leaf) as (Pre & Hs & _ & Len).
  - vm_compute. reflexivity.
  - unfold ids_fit. vm_compute. discriminate.
  - repeat constructor.
  - split; [|split; [exact Hs|exact Len]].
    rewrite Pre by (cbn; lia). reflexivity.
Defined.

(** X5. Until [PropagateAdjoint] has run, the accumulator of a tape
    recorded from a fresh [ADGraph] has no row and no column: the
    pairwise read of any two scalars, and any [AddSoEdge], is outside
    the matrix. *)
Theorem accumulator_unsized_before_propagation
    (lm : Libm) (prog : list Cmd) (pool : list AReal) (g : ADGraph) :
  record lm prog [] ADGraph_new = Some (pool, g) ->
  (forall a b, GetAdjoint2 a b g = None) /\
  (forall i j x, AddSoEdge i j x g = None).
Proof.
  intros E%record_soEdges. cbn in E.
  assert (Hr : forall r c, Eigen.in_range (soEdges g) r c = false).
  { intros r c. rewrite E. unfold Eigen.in_range. cbn.
    by destruct r. }
  split.
  - intros a b. unfold GetAdjoint2, Eigen.coeffRef. by rewrite Hr.
  - intros i j x. unfold AddSoEdge. by rewrite coeffRef_add_None.
Qed.

Lemma accumulator_unsized_before_propagation_witness :
  (forall a b, GetAdjoint2 a b tape_one_leaf = None) /\
  (forall i j x, AddSoEdge i j x tape_one_leaf = None).
Proof.
  apply (accumulator_unsized_before_propagation libm_nan [Leaf 0]
           [mkAReal 0 0] tape_one_leaf).
  vm_compute. reflexivity.
Defined.

(** ** Tapes without curvature *)

Section Flat.

Implicit Types (g : ADGraph) (vid : VertexId).

Lemma flat_lookup g (i : nat) x :
  flat g -> vertices g !! i = Some x -> Real_neq0 (soW x) = false.
Proof. intros Hf Hx. by apply (Forall_lookup_1 _ _ _ _ Hf Hx). Qed.

Lemma sweep_frame_flat g g' : sweep_frame g g' -> flat g -> flat g'.
Proof.
  intros [L V _ _] Hf. apply Forall_lookup. intros i x' Hx'.
  destruct (vertices g !! i) as [x|] eqn:Hx.
  - destruct (V i x x' Hx Hx') as (_ & _ & ->). by eapply flat_lookup.
  - apply lookup_lt_Some in Hx'. apply lookup_ge_None in Hx. lia.
Qed.

Lemma adjoint_soEdges vid vertex a g g' :
  adjoint vid vertex a g = Some (tt, g') -> soEdges g' = soEdges g.
Proof.
  unfold adjoint.
  intros ([] & g1 & E1%update_vertex_soEdges & E)%bind_Some.
  apply bind_Some in E as ([] & g2 & E2%update_vertex_soEdges & E).
  destruct (negb _).
  - apply update_vertex_soEdges in E. congruence.
  - injection E as <-. congruence.
Qed.

(** On a tape without curvature and with nothing stored, a visit stores
    nothing. *)
Lemma visit_flat vid g g' :
  flat g -> Eigen.entries (soEdges g) = ∅ ->
  visit vid g = Some (tt, g') ->
  flat g' /\ Eigen.entries (soEdges g') = ∅.
Proof.
  intros Hf He E.
  pose proof (sweep_frame_flat _ _ (visit_sweep_frame _ _ _ E) Hf) as Hf'.
  split; [exact Hf'|].
  apply bind_Some in E as (vertex & ? & [Hv ->]%vertex_at_Some & E).
  destruct (_ =? vid).
  { by injection E as <-. }
  apply bind_Some in E as ([] & g1 & Ep & E).
  rewrite pushing_empty in Ep by done. injection Ep as <-.
  apply bind_Some in E as (now & ? & [_ ->]%vertex_at_Some & E).
  cbv zeta in E. destruct (Real_neq0 (w now)); [|by injection E as <-].
  apply bind_Some in E as ([] & g2 & Ec & E).
  unfold creating in Ec. rewrite (flat_lookup _ _ _ Hf Hv) in Ec.
  injection Ec as <-. apply adjoint_soEdges in E. by rewrite E.
Qed.

Lemma sweep_flat (k : nat) : forall g g',
  flat g -> Eigen.entries (soEdges g) = ∅ ->
  sweep k g = Some (tt, g') ->
  Eigen.entries (soEdges g') = ∅.
Proof.
  induction k as [|k IH]; intros g g' Hf He; cbn [sweep].
  - by intros [= <-].
  - intros ([] & g1 & Ev & Es)%bind_Some.
    destruct (visit_flat _ _ _ Hf He Ev) as [Hf1 He1]. by eapply IH.
Qed.

Lemma PropagateAdjoint_flat g g' :
  flat g -> PropagateAdjoint g = Some (tt, g') ->
  Eigen.entries (soEdges g') = ∅.
Proof.
  intros Hf ([] & g0 & [= <-] & E)%bind_Some.
  by apply sweep_flat in E.
Qed.

(** A linear command appends one vertex, without curvature. *)
Lemma run_cmd_linear lm pool c g a g' :
  linear_cmd c = true -> size g < 2 ^ UINT_BITS ->
  run_cmd lm pool c g = Some (a, g') ->
  exists vx, g' = appended g vx /\ soW vx = 0%float.
Proof.
  intros Hl Hfit.
  destruct c as [v|op l r|op l r|op l r|f x|x e]; cbn [run_cmd]; intros E;
    try discriminate.
  - unfold NewAReal in E. injection E as <- <-. by eexists.
  - apply bind_Some in E as (a1 & ? & [H1 ->]%held_Some & E).
    apply bind_Some in E as (a2 & ? & [H2 ->]%held_Some & E).
    destruct op; try discriminate; cbn [apply_bin] in E;
      unfold operator_add, operator_sub in E;
      rewrite record_binary in E by done; injection E as <- <-; by eexists.
  - apply bind_Some in E as (a1 & ? & [H1 ->]%held_Some & E).
    destruct op; cbn [apply_bin_r] in E;
      unfold Inv_Real, operator_add_r, operator_sub_r, operator_div_r, operator_mul_r in E;
      rewrite record_unary in E by done; injection E as <- <-; by eexists.
  - apply bind_Some in E as (a1 & ? & [H1 ->]%held_Some & E).
    destruct op; try discriminate; cbn [apply_bin_l] in E;
      unfold operator_add_l, operator_sub_l, operator_mul_l,
             operator_add_r, operator_mul_r in E;
      rewrite record_unary in E by done; injection E as <- <-; by eexists.
Qed.

Lemma record_linear lm prog : forall pool g pool' g',
  forallb linear_cmd prog = true ->
  record lm prog pool g = Some (pool', g') ->
  ids_fit g' -> flat g -> flat g'.
Proof.
  induction prog as [|c prog IH]; intros pool g pool' g'; cbn [record forallb].
  - by intros _ [= _ <-].
  - intros [Hc Hp]%andb_true_iff (a & g1 & E1 & E2)%bind_Some Hfit Hf.
    pose proof (record_size _ _ _ _ _ _ E2) as Hsz.
    pose proof (run_cmd_recorder _ _ _ _ _ _ E1) as [Hg _].
    apply run_cmd_linear in E1 as (vx & -> & Hvx);
      [|done|unfold ids_fit in Hfit; lia].
    eapply IH; [done|exact E2|done|].
    apply Forall_app. split; [done|]. repeat constructor. by rewrite Hvx.
Qed.

End Flat.

(** X11. On a tape on which no vertex has a local curvature,
    [PropagateAdjoint] stores nothing in the accumulator, whatever the
    seed: every second-order entry reads as zero. *)
Theorem PropagateAdjoint_no_curvature (g g' : ADGraph) :
  (forall x, x ∈ vertices g -> PrimFloat.eqb (soW x) 0 = true) ->
  PropagateAdjoint g = Some (tt, g') ->
  Eigen.entries (soEdges g') = ∅ /\
  forall i j, Eigen.coeff (soEdges g') i j = 0%float.
Proof.
  intros Hz E.
  assert (He : Eigen.entries (soEdges g') = ∅).
  { eapply PropagateAdjoint_flat; [|exact E].
    apply Forall_forall. intros x Hx. unfold Real_neq0.
    by rewrite (Hz x Hx). }
  split; [exact He|]. intros i j. unfold Eigen.coeff.
  by rewrite He, lookup_empty.
Qed.

Lemma PropagateAdjoint_no_curvature_witness :
  exists g',
    PropagateAdjoint
      (mkADGraph [ADVertex_new 0; mkADVertex (ADEdge.mk 0 3) (ADEdge.self 1) 1 0]
                 Eigen.empty) = Some (tt, g') /\
    Eigen.entries (soEdges g') = ∅.
Proof.
  eexists. split; [vm_compute; reflexivity|].
  edestruct (PropagateAdjoint_no_curvature
               (mkADGraph [ADVertex_new 0;
                           mkADVertex (ADEdge.mk 0 3) (ADEdge.self 1) 1 0]
                          Eigen.empty)) as [He _].
  - intros x. cbn [vertices]. rewrite !elem_of_cons, elem_of_nil.
    intros [->|[->|[]]]; reflexivity.
  - vm_compute. reflexivity.
  - exact He.
Defined.

(** X12. The second-order result of a linear program is empty.  For a
    program of leaf creations, sums, differences, and products and
    quotients by plain numbers, recorded on a fresh tape whose
    identifiers fit: after seeding any scalar with any adjoint and
    propagating, nothing is stored in the accumulator. *)
Theorem linear_program_has_no_second_order
    (lm : Libm) (prog : list Cmd) (pool : list AReal)
    (g gs gf : ADGraph) (f : AReal) (adj : Real) :
  forallb linear_cmd prog = true ->
  record lm prog [] ADGraph_new = Some (pool, g) ->
  ids_fit g ->
  SetAdjoint f adj g = Some (tt, gs) ->
  PropagateAdjoint gs = Some (tt, gf) ->
  Eigen.entries (soEdges gf) = ∅.
Proof.
  intros Hl E Hfit Es Ep.
  eapply PropagateAdjoint_flat; [|exact Ep].
  eapply sweep_frame_flat.
  - eapply update_vertex_sweep_frame; [|exact Es]. by intros v.
  - eapply record_linear; [exact Hl|exact E|exact Hfit|constructor].
Qed.

Lemma linear_program_has_no_second_order_witness :
  exists pool g gs gf,
    record libm_nan session_linear [] ADGraph_new = Some (pool, g) /\
    SetAdjoint (mkAReal 0 5) 1 g = Some (tt, gs) /\
    PropagateAdjoint gs = Some (tt, gf) /\
    GetAdjoint (mkAReal 3 0) gf = Some ((-0.5)%float, gf) /\
    Eigen.entries (soEdges gf) = ∅.
Proof.
  eexists _, _, _, _.
  split; [vm_compute; reflexivity|]. split; [vm_compute; reflexivity|].
  split; [vm_compute; reflexivity|]. split; [vm_compute; reflexivity|].
  eapply (linear_program_has_no_second_order libm_nan session_linear)
    with (f := mkAReal 0 5) (adj := 1%float).
  - reflexivity.
  - vm_compute. reflexivity.
  - unfold ids_fit. vm_compute. discriminate.
  - vm_compute. reflexivity.
  - vm_compute. reflexivity.
Defined.

(** ** Operators, adjoints and entries *)

(** X1. Every recording operator returns, on any tape and whatever the
    identifiers of its operands: the operands are stored in the new
    edges and never used to index the tape.  A leaf creation and every
    operator append one vertex; a division by an active scalar appends
    two. *)
Theorem operators_always_return (lm : Libm) (g : ADGraph) :
  (forall v, exists a g', NewAReal v g = Some (a, g') /\ size g' = size g + 1) /\
  (forall op l r, exists a g',
     apply_bin op l r g = Some (a, g') /\
     size g' = size g + (if op is OpDiv then 2 else 1)) /\
  (forall op l x, exists a g',
     apply_bin_r op l x g = Some (a, g') /\ size g' = size g + 1) /\
  (forall op x r, exists a g',
     apply_bin_l op x r g = Some (a, g') /\
     size g' = size g + (if op is OpDiv then 2 else 1)) /\
  (forall f p, exists a g',
     apply_un lm f p g = Some (a, g') /\ size g' = size g + 1) /\
  (forall p x, exists a g',
     pow lm p x g = Some (a, g') /\ size g' = size g + 1).
Proof.
  assert (U : forall g0 p v w1 s, exists a g',
             (let* ret' := NewAReal v in AddEdge1 ret' p w1 s ;; ret ret') g0
             = Some (a, g') /\ size g' = size g0 + 1).
  { intros g0 p v w1 s.
    destruct (unary_appends g0 p v w1 s) as (a & g' & E & _ & S). eauto. }
  assert (B : forall g0 p1 p2 v w1 w2 s, exists a g',
             (let* ret' := NewAReal v in AddEdge2 ret' p1 p2 w1 w2 s ;; ret ret') g0
             = Some (a, g') /\ size g' = size g0 + 1).
  { intros g0 p1 p2 v w1 w2 s.
    destruct (binary_appends g0 p1 p2 v w1 w2 s) as (a & g' & E & _ & S). eauto. }
  assert (I : forall r (k : AReal -> G AReal),
             (forall i g0, exists a g', k i g0 = Some (a, g') /\ size g' = size g0 + 1) ->
             exists a g', (let* i := Inv r in k i) g = Some (a, g')
                          /\ size g' = size g + 2).
  { intros r k Hk. destruct (U g r (1 / val r)%float
                               (- (1 / val r * (1 / val r)))%float
                               (2 * (1 / val r * (1 / val r) * (1 / val r)))%float)
      as (i & g1 & Ei & S1).
    destruct (Hk i g1) as (a & g2 & Ea & S2). exists a, g2.
    split; [|lia]. unfold bind at 1, Inv. cbv zeta. by rewrite Ei. }
  repeat split.
  - intros v. eexists _, _. split; [reflexivity|]. apply size_appended.
  - intros [] l r; cbn [apply_bin]; try apply B.
    apply I. intros i g0. apply B.
  - intros [] l x; cbn [apply_bin_r]; apply U.
  - intros [] x r; cbn [apply_bin_l]; try apply U.
    apply I. intros i g0. apply U.
  - intros [] p; cbn [apply_un]; apply U.
  - intros p x. apply U.
Qed.

(** X3. [SetAdjoint] and [GetAdjoint] on a scalar of the tape: the
    adjoint set is the adjoint read back, the adjoint of every other
    vertex reads as before, and the edges, the curvatures, the number of
    vertices and the accumulator are untouched.  On a scalar whose
    identifier is not on the tape both are outside the vector. *)
Theorem SetAdjoint_then_GetAdjoint (g : ADGraph) (v : AReal) (adj : Real) :
  (varId v < size g ->
   exists g',
     SetAdjoint v adj g = Some (tt, g') /\
     GetAdjoint v g' = Some (adj, g') /\
     (forall u, varId u <> varId v ->
                fst <$> GetAdjoint u g' = fst <$> GetAdjoint u g) /\
     soEdges g' = soEdges g /\
     length (vertices g') = length (vertices g) /\
     (forall (i : nat) x x', vertices g !! i = Some x ->
        vertices g' !! i = Some x' ->
        e1 x' = e1 x /\ e2 x' = e2 x /\ soW x' = soW x)) /\
  (size g <= varId v ->
   SetAdjoint v adj g = None /\ GetAdjoint v g = None).
Proof.
  split.
  - intros Hv. destruct (proj2 (lookup_size g (varId v)) Hv) as [x Hx].
    assert (Hlt : (N.to_nat (varId v) < length (vertices g))%nat)
      by (by eapply lookup_lt_Some).
    assert (E : SetAdjoint v adj g
                = Some (tt, mkADGraph (<[N.to_nat (varId v) :=
                                           mkADVertex (e1 x) (e2 x) adj (soW x)]>
                                         (vertices g)) (soEdges g))).
    { unfold SetAdjoint, update_vertex. by rewrite Hx. }
    eexists. split; [exact E|].
    pose proof (update_vertex_sweep_frame (varId v)
                  (fun x => mkADVertex (e1 x) (e2 x) adj (soW x))
                  ltac:(by intros) _ _ E) as [L V _ _].
    split; [|split; [|split; [done|split; [exact L|exact V]]]].
    + unfold GetAdjoint, bind, vertex_at. cbn [vertices].
      by rewrite list_lookup_insert_eq.
    + intros u Hu. unfold GetAdjoint, bind, vertex_at. cbn [vertices].
      rewrite list_lookup_insert_ne by lia.
      by destruct (vertices g !! N.to_nat (varId u)).
  - intros Hv.
    assert (Hn : vertices g !! N.to_nat (varId v) = None).
    { apply lookup_ge_None. unfold size in Hv. lia. }
    unfold SetAdjoint, GetAdjoint, bind, update_vertex, vertex_at.
    by rewrite Hn.
Qed.

Lemma SetAdjoint_then_GetAdjoint_witness :
  exists g',
    SetAdjoint (mkAReal 25 1) 7 tape_square = Some (tt, g') /\
    GetAdjoint (mkAReal 25 1) g' = Some (7%float, g').
Proof.
  destruct (proj1 (SetAdjoint_then_GetAdjoint tape_square (mkAReal 25 1) 7))
    as (g' & Es & Eg & _); [reflexivity|].
  exists g'. split; [exact Es|exact Eg].
Defined.

(** X4. A write to the accumulator is read back by the pairwise read in
    either order of the two scalars: after [AddSoEdge] on the
    identifiers of [a] and [b] with weight [x], the read of (a, b) and
    the read of (b, a) both return the coefficient that was there plus
    [x], and neither changes the tape. *)
Theorem AddSoEdge_then_GetAdjoint2 (g g' : ADGraph) (a b : AReal) (x : Real) :
  AddSoEdge (varId a) (varId b) x g = Some (tt, g') ->
  GetAdjoint2 a b g'
  = Some ((Eigen.coeff (soEdges g) (N.min (varId a) (varId b))
                       (N.max (varId a) (varId b)) + x)%float, g') /\
  GetAdjoint2 b a g' = GetAdjoint2 a b g'.
Proof.
  intros [Hr ->]%AddSoEdge_Some. split.
  - unfold GetAdjoint2, Eigen.coeffRef. cbn [soEdges vertices].
    unfold Eigen.in_range in *. cbn [Eigen.rows Eigen.cols Eigen.entries].
    by rewrite Hr, lookup_insert_eq.
  - unfold GetAdjoint2.
    by rewrite (N.min_comm (varId b)), (N.max_comm (varId b)).
Qed.

Lemma AddSoEdge_then_GetAdjoint2_witness :
  exists g',
    AddSoEdge 1 0 7 tape_chain_diag = Some (tt, g') /\
    GetAdjoint2 (mkAReal 0 1) (mkAReal 0 0) g' = Some (7%float, g') /\
    GetAdjoint2 (mkAReal 0 0) (mkAReal 0 1) g' = Some (7%float, g').
Proof.
  eexists. split; [vm_compute; reflexivity|].
  edestruct (AddSoEdge_then_GetAdjoint2 tape_chain_diag)
    with (a := mkAReal 0 1) (b := mkAReal 0 0) (x := 7%float) as [E1 E2].
  - vm_compute. reflexivity.
  - split; [exact E1|]. rewrite E2. exact E1.
Defined.

(** X13. [Clear] leaves a tape with no vertex and an accumulator with
    nothing stored and its dimensions kept.  On the cleared tape every
    adjoint access and [PropagateAdjoint] are outside the vector;
    identifiers restart at 0, and any program recorded on it (the
    identifiers fitting) keeps the edge discipline. *)
Theorem Clear_restarts_the_tape (g : ADGraph) :
  exists g0,
    Clear g = Some (tt, g0) /\
    vertices g0 = [] /\
    Eigen.entries (soEdges g0) = ∅ /\
    Eigen.rows (soEdges g0) = Eigen.rows (soEdges g) /\
    Eigen.cols (soEdges g0) = Eigen.cols (soEdges g) /\
    (forall a x, SetAdjoint a x g0 = None /\ GetAdjoint a g0 = None) /\
    PropagateAdjoint g0 = None /\
    (forall v, exists g1, NewAReal v g0 = Some (mkAReal v 0, g1)) /\
    (forall lm prog pool g', record lm prog [] g0 = Some (pool, g') ->
                             ids_fit g' -> tape_ok g').
Proof.
  eexists. split; [reflexivity|]. cbn [vertices soEdges Eigen.setZero
    Eigen.entries Eigen.rows Eigen.cols].
  do 4 (split; [reflexivity|]).
  split; [|split; [apply PropagateAdjoint_empty|split]].
  - intros a x. split.
    + unfold SetAdjoint, update_vertex. cbn [vertices]. by rewrite lookup_nil.
    + unfold GetAdjoint, bind, vertex_at. cbn [vertices]. by rewrite lookup_nil.
  - intros v. by eexists.
  - intros lm prog pool g' E Hfit.
    eapply (record_ok lm prog []); [exact E|exact Hfit| |constructor].
    intros i x. cbn. by rewrite lookup_nil.
Qed.

(** ** The pushing loop and its column; edges that leave the tape *)

(** X14. The pushing loop at a vertex that is not a leaf never writes to
    the column it iterates over: every write of the loop body lands in a
    column other than [vid], so the stored entries of column [vid], and
    with them what the iterator opened at [vid] yields, are the same
    after the loop as before; the loop changes no vertex record. *)
Theorem pushing_never_writes_its_column
    (vid : VertexId) (ea eb : ADEdge.t) (g g' : ADGraph) :
  ADEdge.to ea <> vid ->
  pushing vid ea eb g = Some (tt, g') ->
  (forall r, Eigen.entries (soEdges g') !! (r, vid)
             = Eigen.entries (soEdges g) !! (r, vid)) /\
  Eigen.InnerIterator (soEdges g') vid = Eigen.InnerIterator (soEdges g) vid /\
  vertices g' = vertices g.
Proof.
  intros Ha E. split; [by apply (pushing_keeps_column vid ea eb Ha g g')|].
  split; [by eapply pushing_iterator_stable|].
  by apply pushing_frame in E as [].
Qed.

Lemma pushing_never_writes_its_column_witness :
  exists g',
    pushing 2 (ADEdge.mk 0 4) (ADEdge.mk 1 3) tape_product_entries
    = Some (tt, g') /\
    Eigen.InnerIterator (soEdges g') 2 = [(1, 1%float); (2, 2%float)] /\
    Eigen.coeff (soEdges g') 0 1 = 28%float.
Proof.
  eexists. split; [vm_compute; reflexivity|].
  edestruct (pushing_never_writes_its_column 2 (ADEdge.mk 0 4) (ADEdge.mk 1 3)
               tape_product_entries) as (_ & Hit & _).
  - cbn. lia.
  - vm_compute. reflexivity.
  - split; [rewrite Hit|]; vm_compute; reflexivity.
Defined.

Section Dangling.

Implicit Types (g : ADGraph) (vid : VertexId).

Lemma AddSoEdge_outside i j x g :
  Eigen.cols (soEdges g) <= N.max i j -> AddSoEdge i j x g = None.
Proof.
  intros Hc. unfold AddSoEdge. rewrite coeffRef_add_None; [done|].
  unfold Eigen.in_range. apply andb_false_iff. right. by apply N.ltb_ge.
Qed.

Lemma update_vertex_outside i f g :
  size g <= i -> update_vertex i f g = None.
Proof.
  intros Hi. unfold update_vertex.
  rewrite (proj2 (lookup_ge_None (vertices g) (N.to_nat i))); [done|].
  unfold size in Hi. lia.
Qed.

(** The visit of a vertex with a non-zero adjoint whose first edge
    points outside the tape does not return. *)
Lemma visit_dangling vid g vertex :
  vertices g !! N.to_nat vid = Some vertex ->
  is_leaf vid vertex = false ->
  Real_neq0 (w vertex) = true ->
  size g <= ADEdge.to (e1 vertex) ->
  Eigen.cols (soEdges g) <= size g ->
  visit vid g = None.
Proof.
  intros Hv Hl Hw He Hc. unfold visit, bind at 1, vertex_at at 1.
  rewrite Hv. unfold is_leaf in Hl. rewrite Hl. unfold bind at 1.
  destruct (pushing vid (e1 vertex) (e2 vertex) g) as [[[] g1]|] eqn:Ep; [|done].
  apply pushing_frame in Ep as [Ev _ Ec _ _].
  unfold bind at 1, vertex_at. rewrite Ev, Hv, Hw.
  assert (Hs : size g1 = size g) by (unfold size; by rewrite Ev).
  unfold bind, creating.
  assert (Ha : adjoint vid vertex (w vertex) g1 = None).
  { unfold adjoint, bind.
    destruct (update_vertex vid _ g1) as [[[] g3]|] eqn:E3; [|done].
    apply update_vertex_size in E3.
    rewrite update_vertex_outside; [done|lia]. }
  destruct (Real_neq0 (soW vertex)).
  - destruct (ADEdge.to (e2 vertex) =? vid);
      rewrite AddSoEdge_outside; try done; lia.
  - exact Ha.
Qed.

End Dangling.

(** X15. An operand that is not on the tape is found out at propagation
    only.  If the last vertex of a tape of at least two vertices
    (identifiers fitting) is not a leaf, carries a non-zero adjoint, and
    its first edge points to an identifier that is not on the tape,
    [PropagateAdjoint] runs outside the tape and does not return. *)
Theorem PropagateAdjoint_dangling_parent (g : ADGraph) (vertex : ADVertex) :
  ids_fit g -> 2 <= size g ->
  vertices g !! N.to_nat (size g - 1) = Some vertex ->
  ADEdge.to (e1 vertex) <> size g - 1 ->
  PrimFloat.eqb (w vertex) 0 = false ->
  size g <= ADEdge.to (e1 vertex) ->
  PropagateAdjoint g = None.
Proof.
  intros Hfit Hn Hv Hl Hw He.
  unfold PropagateAdjoint, bind at 1, resize_soEdges.
  change (size (mkADGraph _ _)) with (size g).
  rewrite first_vid_pos by (unfold ids_fit in Hfit; lia).
  destruct (N.to_nat (size g - 1)) as [|k] eqn:Hk; [lia|].
  cbn [sweep]. unfold bind at 1.
  rewrite (visit_dangling (N.of_nat (S k)) _ vertex); [done|..].
  - cbn [vertices]. by rewrite Nat2N.id.
  - unfold is_leaf. apply N.eqb_neq. lia.
  - unfold Real_neq0. by rewrite Hw.
  - done.
  - cbn. unfold size. cbn. lia.
Qed.

(** [x] was created on a tape since cleared, with identifier 7; on the
    new tape [c = 2] is a leaf and [f = x * c] is recorded and seeded. *)
Lemma PropagateAdjoint_dangling_parent_witness :
  exists g,
    exec (let* c := NewAReal 2 in
          let* f := operator_mul (mkAReal 3 7) c in
          SetAdjoint f 1) ADGraph_new = Some g /\
    PropagateAdjoint g = None.
Proof.
  eexists. split; [vm_compute; reflexivity|].
  eapply (PropagateAdjoint_dangling_parent _
            (mkADVertex (ADEdge.mk 7 2) (ADEdge.mk 0 3) 1 1)).
  - unfold ids_fit. vm_compute. discriminate.
  - vm_compute. discriminate.
  - reflexivity.
  - vm_compute. discriminate.
  - reflexivity.
  - vm_compute. discriminate.
Defined.

(** ** The diagonal entry, in the visit *)

Section DiagonalPush.

Implicit Types (g : ADGraph) (vid : VertexId) (ea eb : ADEdge.t).

Lemma for_each_app {A} (l1 l2 : list A) (body : A -> G unit) g :
  for_each (l1 ++ l2) body g
  = (for_each l1 body ;; for_each l2 body) g.
Proof.
  revert g. induction l1 as [|a l1 IH]; intros g; cbn [for_each app].
  - reflexivity.
  - unfold bind. destruct (body a g) as [[[] g1]|]; [|done].
    rewrite IH. reflexivity.
Qed.

Lemma omap_all_None {A B} (f : A -> option B) (l : list A) :
  (forall a, a ∈ l -> f a = None) -> omap f l = [].
Proof.
  induction l as [|a l IH]; intros H; [done|].
  cbn [omap list_omap]. rewrite (H a) by left.
  apply IH. intros b Hb. apply H. by right.
Qed.

(** In an upper-triangular accumulator the diagonal entry of column
    [vid] is the last one the iterator opened at [vid] meets. *)
Lemma InnerIterator_diagonal_last (m : Eigen.SparseMatrix) (vid : N) s :
  in_dims m -> upper m ->
  Eigen.entries m !! (vid, vid) = Some s ->
  Eigen.InnerIterator m vid = column_below m vid ++ [(vid, s)].
Proof.
  intros Hd Hu E. destruct (Hd _ _ _ E) as [Hr _].
  unfold Eigen.InnerIterator, Eigen.inner_indices, column_below.
  replace (N.to_nat (Eigen.rows m))
    with (N.to_nat vid + S (N.to_nat (Eigen.rows m) - S (N.to_nat vid)))%nat
    by lia.
  rewrite seq_app, map_app, omap_app. f_equal.
  cbn [seq map omap list_omap]. rewrite Nat.add_0_l, N2Nat.id, E.
  f_equal. apply omap_all_None. intros k Hk.
  apply list_elem_of_In, in_map_iff in Hk as (j & <- & Hj%in_seq).
  destruct (Eigen.entries m !! (N.of_nat j, vid)) as [x|] eqn:Ex; [|done].
  apply Hu in Ex. lia.
Qed.

Lemma stored_mono_refl g : stored_mono g g.
Proof. by intros k. Qed.

Lemma stored_mono_trans g1 g2 g3 :
  stored_mono g1 g2 -> stored_mono g2 g3 -> stored_mono g1 g3.
Proof. intros H1 H2 k Hk. auto. Qed.

Lemma soEdges_stored_mono g g' : soEdges g' = soEdges g -> stored_mono g g'.
Proof. intros E k. by rewrite E. Qed.

(** [AddSoEdge] stores its slot and forgets nothing. *)
Lemma AddSoEdge_stored i j x g g' :
  AddSoEdge i j x g = Some (tt, g') ->
  is_Some (Eigen.entries (soEdges g') !! (N.min i j, N.max i j)) /\
  stored_mono g g'.
Proof.
  intros [_ ->]%AddSoEdge_Some. split.
  - cbn [soEdges Eigen.entries]. rewrite lookup_insert_eq. by eexists.
  - intros k Hk. cbn [soEdges Eigen.entries]. rewrite lookup_insert.
    by case_decide.
Qed.

Lemma creating_stored_mono vid vertex a : relates stored_mono (creating vid vertex a).
Proof.
  unfold creating.
  destruct (Real_neq0 _); [|apply relates_ret, stored_mono_refl].
  case (_ =? vid); intros g g' E; by apply AddSoEdge_stored in E as [_ ?].
Qed.

Lemma adjoint_stored_mono vid vertex a : relates stored_mono (adjoint vid vertex a).
Proof.
  intros g g' E. apply soEdges_stored_mono. by eapply adjoint_soEdges.
Qed.

End DiagonalPush.

(** C1, as the code has it.

    Seeds are dropped.  [PropagateAdjoint] is the sweep run on the tape
    with an accumulator resized to N x N and emptied, so its outcome
    does not depend on what was stored before the call; in particular,
    on a tape seeded at second order only (no vertex other than a leaf
    has a non-zero adjoint) it returns with every vertex as it was and
    nothing stored, whatever was stored before.

    The diagonal push is for entries created during the sweep.  When the
    sweep visits a vertex [vid] that is not a leaf, in an accumulator
    whose entries are in range and upper triangular and which stores
    (vid, vid) with weight [s]: the iterator at [vid] meets that entry,
    after the entries above the diagonal; the visit is the pushing of
    those entries, then the push of the diagonal entry through the
    first-order edges ([e1.w * e1.w * s] onto ([e1.to], [e1.to]); if [e2]
    exists, [e2.w * e2.w * s] onto ([e2.to], [e2.to]) and
    [e1.w * e2.w * s], doubled when the parents coincide, onto
    ([e1.to], [e2.to])), then the creating and adjoint steps; and when
    the visit returns, entries are stored at those slots. *)
Theorem C1_seeds_dropped_diagonal_pushed :
  (forall (vs : list ADVertex) (m : Eigen.SparseMatrix),
     PropagateAdjoint (mkADGraph vs m)
     = sweep (N.to_nat (first_vid (N.of_nat (length vs))))
             (mkADGraph vs (Eigen.mkSparse (N.of_nat (length vs))
                                           (N.of_nat (length vs)) ∅)) /\
     PropagateAdjoint (mkADGraph vs m)
     = PropagateAdjoint (mkADGraph vs Eigen.empty)) /\
  (forall (vs : list ADVertex) (m : Eigen.SparseMatrix),
     vs <> [] -> N.of_nat (length vs) <= 2 ^ UINT_BITS ->
     (forall (i : nat) (x : ADVertex),
        vs !! i = Some x ->
        ADEdge.to (e1 x) <> N.of_nat i -> PrimFloat.eqb (w x) 0 = true) ->
     PropagateAdjoint (mkADGraph vs m)
     = Some (tt, mkADGraph vs (Eigen.mkSparse (N.of_nat (length vs))
                                              (N.of_nat (length vs)) ∅))) /\
  (forall (g : ADGraph) (vid : VertexId) (vertex : ADVertex) (s : Real),
     vertices g !! N.to_nat vid = Some vertex ->
     ADEdge.to (e1 vertex) <> vid ->
     in_dims (soEdges g) -> upper (soEdges g) ->
     Eigen.entries (soEdges g) !! (vid, vid) = Some s ->
     let ea := e1 vertex in
     let eb := e2 vertex in
     Eigen.InnerIterator (soEdges g) vid
     = column_below (soEdges g) vid ++ [(vid, s)] /\
     visit vid g
     = (for_each (column_below (soEdges g) vid) (push_entry vid ea eb) ;;
        AddSoEdge (ADEdge.to ea) (ADEdge.to ea) (ADEdge.w ea * ADEdge.w ea * s) ;;
        (if negb (ADEdge.to eb =? vid) then
           AddSoEdge (ADEdge.to eb) (ADEdge.to eb) (ADEdge.w eb * ADEdge.w eb * s) ;;
           AddSoEdge (ADEdge.to ea) (ADEdge.to eb)
             (if ADEdge.to ea =? ADEdge.to eb
              then (2 * ADEdge.w ea * ADEdge.w eb * s)%float
              else (ADEdge.w ea * ADEdge.w eb * s)%float)
         else ret tt) ;;
        let* now := vertex_at vid in
        if Real_neq0 (w now)
        then creating vid vertex (w now) ;; adjoint vid vertex (w now)
        else ret tt) g /\
     (forall g', visit vid g = Some (tt, g') ->
        is_Some (Eigen.entries (soEdges g') !! (ADEdge.to ea, ADEdge.to ea)) /\
        (ADEdge.to eb <> vid ->
         is_Some (Eigen.entries (soEdges g') !! (ADEdge.to eb, ADEdge.to eb)) /\
         is_Some (Eigen.entries (soEdges g')
                    !! (N.min (ADEdge.to ea) (ADEdge.to eb),
                        N.max (ADEdge.to ea) (ADEdge.to eb)))))).
Proof.
  split; [|split].
  - intros vs m. split; reflexivity.
  - intros vs m Hne Hfit Hz.
    apply (PropagateAdjoint_quiet (mkADGraph vs m)); try done.
    intros i x Hx Hl. unfold is_leaf in Hl. apply N.eqb_neq in Hl.
    unfold Real_neq0. by rewrite (Hz i x Hx Hl).
  - intros g vid vertex s Hv Hl Hd Hu E. cbv zeta.
    set (ea := e1 vertex). set (eb := e2 vertex).
    pose proof (InnerIterator_diagonal_last _ _ _ Hd Hu E) as Hit.
    assert (Hvisit :
      visit vid g
      = (for_each (column_below (soEdges g) vid) (push_entry vid ea eb) ;;
         AddSoEdge (ADEdge.to ea) (ADEdge.to ea) (ADEdge.w ea * ADEdge.w ea * s) ;;
         (if negb (ADEdge.to eb =? vid) then
            AddSoEdge (ADEdge.to eb) (ADEdge.to eb) (ADEdge.w eb * ADEdge.w eb * s) ;;
            AddSoEdge (ADEdge.to ea) (ADEdge.to eb)
              (if ADEdge.to ea =? ADEdge.to eb
               then (2 * ADEdge.w ea * ADEdge.w eb * s)%float
               else (ADEdge.w ea * ADEdge.w eb * s)%float)
          else ret tt) ;;
         let* now := vertex_at vid in
         if Real_neq0 (w now)
         then creating vid vertex (w now) ;; adjoint vid vertex (w now)
         else ret tt) g).
    { unfold visit, bind at 1, vertex_at at 1. rewrite Hv.
      rewrite (proj2 (N.eqb_neq _ _) Hl).
      unfold pushing. fold ea eb.
      unfold bind at 1. rewrite Hit, for_each_app.
      unfold bind at 1 2. unfold bind at 2.
      destruct (for_each (column_below (soEdges g) vid) _ g) as [[[] g1]|];
        [|done].
      cbn [for_each]. unfold push_entry.
      cbn [fst snd ADEdge.to ADEdge.w]. rewrite N.eqb_refl. cbn [negb].
      unfold bind, ret.
      destruct (AddSoEdge (ADEdge.to ea) (ADEdge.to ea) _ g1) as [[[] g2]|];
        [|done].
      destruct (negb (ADEdge.to eb =? vid)); [|done].
      destruct (AddSoEdge (ADEdge.to eb) (ADEdge.to eb) _ g2) as [[[] g3]|];
        [|done].
      by destruct (AddSoEdge (ADEdge.to ea) (ADEdge.to eb) _ g3) as [[[] g4]|]. }
    split; [exact Hit|]. split; [exact Hvisit|].
    intros g' Eg. rewrite Hvisit in Eg.
    apply bind_Some in Eg as ([] & g1 & _ & Eg).
    apply bind_Some in Eg as ([] & g2 & [S2 _]%AddSoEdge_stored & Eg).
    rewrite N.min_id, N.max_id in S2.
    apply bind_Some in Eg as ([] & g3 & E3 & Eg).
    assert (Hrest : stored_mono g3 g').
    { apply bind_Some in Eg as (now & ? & [_ ->]%vertex_at_Some & Eg).
      destruct (Real_neq0 _); [|injection Eg as <-; apply stored_mono_refl].
      apply bind_Some in Eg as ([] & g4 & Ec%creating_stored_mono & Ea).
      eapply stored_mono_trans; [exact Ec|]. by eapply adjoint_stored_mono. }
    destruct (negb (ADEdge.to eb =? vid)) eqn:Hb.
    + apply bind_Some in E3 as ([] & g2b & [Sb Mb]%AddSoEdge_stored & E3).
      rewrite N.min_id, N.max_id in Sb.
      apply AddSoEdge_stored in E3 as [Sc Mc].
      split; [apply Hrest, Mc, Mb, S2|]. intros _.
      split; [apply Hrest, Mc, Sb|apply Hrest, Sc].
    + injection E3 as <-. split; [apply Hrest, S2|].
      intros Hne. apply negb_false_iff, N.eqb_eq in Hb. done.
Qed.

(** On the chain with the diagonal entry (1, 1) stored, the visit of
    vertex 1 meets it and pushes it: [3 * 3 * 1] lands at (0, 0). *)
Lemma C1_witness :
  Eigen.InnerIterator (soEdges tape_chain_diag) 1 = [(1, 1%float)] /\
  exists g',
    visit 1 tape_chain_diag = Some (tt, g') /\
    Eigen.entries (soEdges g') !! (0, 0) = Some 9%float /\
    is_Some (Eigen.entries (soEdges g') !! (0, 0)).
Proof.
  destruct (proj2 (proj2 C1_seeds_dropped_diagonal_pushed) tape_chain_diag 1
              (mkADVertex (ADEdge.mk 0 3) (ADEdge.self 1) 0 2) 1%float)
    as (Hit & Hv & Hs).
  - reflexivity.
  - cbn. lia.
  - intros i j x. cbn. intros [[= <- <-] _]%lookup_singleton_Some. lia.
  - intros i j x. cbn. intros [[= <- <-] _]%lookup_singleton_Some. lia.
  - reflexivity.
  - split; [exact Hit|].
    assert (Ev : visit 1 tape_chain_diag
                 = Some (tt, mkADGraph chain_vertices
                               (Eigen.mkSparse 2 2
                                  (<[(0, 0) := 9%float]> {[ (1, 1) := 1%float ]}))))
      by (vm_compute; reflexivity).
    eexists. split; [exact Ev|]. split; [vm_compute; reflexivity|].
    exact (proj1 (Hs _ Ev)).
Defined.
